(** * Distributed heartbeat: the store protocol of instances, groups and GC

    A shallow embedding of the heartbeat service's core:
    - [src/db.ts]: the polling mutex ([aquireLock], [releaseLock]);
    - [src/endpoints/groups.ts]: the key mapper, the global list of groups,
      [addGroup], [removeGroup], [alterListIndex], the GC sweep
      ([shouldGC], [disposeExpired]) and the [GET /:group] handler;
    - [src/endpoints/instances.ts]: [addInstance], [removeInstance] and the
      [POST /:group/:id] and [DELETE /:group/:id] handlers.

    The Redis store is one flat finite map from keys to values.  A stored
    string is represented by the value whose [JSON.stringify] it is, with one
    constructor per entry of the source's [DBSchema]; a read that finds a
    value of another shape than the one the source's type annotation declares
    halts the model ([OffSchema]).  [Date.now()] reads a clock carried by the
    world; [sleep] hands the world to the environment, which returns the one
    the caller wakes up in.  [Promise.all] batches are run in the order in
    which the source lists (or maps) them, each task to completion; the
    unbounded loop of [aquireLock] is given a budget of polls.  Logging and
    the observability counter [gcCounter] are left out. *)

From stdpp Require Import gmap strings list fin_maps pretty.
From Stdlib Require Import ZArith QArith.

Open Scope string_scope.
Open Scope list_scope.
Open Scope Z_scope.

(** ** Data model *)

(** The opaque request body ([TPostRequest = object]), kept as its JSON text. *)
Definition Payload := string.

(** [TInstance]: fields [id], [group], [createdAt], [updatedAt], [meta]. *)
Record TInstance := mkInstance {
  i_id : string;
  i_group : string;
  i_createdAt : Z;
  i_updatedAt : Z;
  i_meta : Payload
}.

(** [TGroup]: fields [group], [createdAt], [lastUpdatedAt]. *)
Record TGroup := mkGroup {
  g_group : string;
  g_createdAt : Z;
  g_lastUpdatedAt : Z
}.

(** [TConfig], the three durations the core reads. *)
Record TConfig := mkConfig {
  gcInterval : Z;
  instanceTimeout : Z;
  mutexTimeout : Z
}.

(** What a store key can hold, after [DBSchema]. *)
Inductive Value :=
| VInstance (i : TInstance)
| VGroup (g : TGroup)
| VList (ids : list string)
| VNumber (n : Z).

(** The store together with the wall clock. *)
Record World := mkWorld {
  db : gmap string Value;
  clock : Z
}.

Inductive Status := OK | NO_CONTENT | NOT_FOUND.

(** [instance.updatedAt = t]. *)
Definition set_updatedAt (i : TInstance) (t : Z) : TInstance :=
  mkInstance (i_id i) (i_group i) (i_createdAt i) t (i_meta i).

(** [group.lastUpdatedAt = t]. *)
Definition set_lastUpdatedAt (g : TGroup) (t : Z) : TGroup :=
  mkGroup (g_group g) (g_createdAt g) t.

(** ** Key-space mapper *)

Definition getInstanceKey (gid id : string) : string :=
  "instance:" +:+ gid +:+ ":" +:+ id.

Definition getGroupKey (gid : string) : string := "group:" +:+ gid.

Definition getGroupIndexKey (gid : string) : string :=
  "group:" +:+ gid +:+ ":instances".

Definition listIndexKey : string := "groups".

Definition mutexKey (name : string) : string := "mutex:" +:+ name.

Definition last_gc : string := "last_gc".

(** ** The monad of store programs *)

(** Why a run stops without a result: the poll budget of [aquireLock] is
    used up, or a key holds a value outside the schema. *)
Inductive Halt := OutOfFuel | OffSchema (key : string).

Inductive Outcome (A : Type) :=
| Ok (a : A) (w : World)
| Stop (h : Halt).
Arguments Ok {A} a w.
Arguments Stop {A} h.

Definition M (A : Type) : Type := World → Outcome A.

#[global] Instance M_ret : MRet M := λ A a w, Ok a w.

#[global] Instance M_bind : MBind M := λ A B f m w,
  match m w with
  | Ok a w' => f a w'
  | Stop h => Stop h
  end.

Definition halt {A} (h : Halt) : M A := λ _, Stop h.

(** [db.get], [db.set], [db.del], [db.exists], [Date.now()]. *)
Definition get (k : string) : M (option Value) := λ w, Ok (db w !! k) w.

Definition set (k : string) (v : Value) : M unit :=
  λ w, Ok tt (mkWorld (<[k := v]> (db w)) (clock w)).

Definition del (k : string) : M unit :=
  λ w, Ok tt (mkWorld (delete k (db w)) (clock w)).

Definition exists_ (k : string) : M bool :=
  λ w, Ok (bool_decide (is_Some (db w !! k))) w.

Definition now : M Z := λ w, Ok (clock w) w.

(** [xs.map(f)] awaited with [Promise.all], tasks run in list order. *)
Fixpoint forM {A} (f : A → M unit) (xs : list A) : M unit :=
  match xs with
  | [] => mret tt
  | x :: xs' => f x;; forM f xs'
  end.

(** The same for callbacks that update a variable of the enclosing scope. *)
Fixpoint foldM {A B} (f : B → A → M B) (b : B) (xs : list A) : M B :=
  match xs with
  | [] => mret b
  | x :: xs' => b' ← f b x; foldM f b' xs'
  end.

(** [parseInt(s, 10)] of a stored value: only a bare number parses, the JSON
    text of an object or an array gives [NaN] ([None]). *)
Definition parseInt (v : Value) : option Z :=
  match v with
  | VNumber n => Some n
  | _ => None
  end.

(** [a + d > b] and [a + d < b] on numbers that may be [NaN] or [undefined]:
    a comparison with [NaN] is false. *)
Definition plus_gt (a : option Z) (d b : Z) : bool :=
  match a with
  | Some x => b <? x + d
  | None => false
  end.

Definition plus_lt (a : option Z) (d b : Z) : bool :=
  match a with
  | Some x => x + d <? b
  | None => false
  end.

(** [xs?.length] as a condition. *)
Definition has_length (xs : option (list string)) : bool :=
  match xs with
  | Some (_ :: _) => true
  | _ => false
  end.

Section Core.

Variable config : TConfig.

(** The world a sleeping caller finds when [sleep(ms)] resolves: time has
    passed and other processes may have written to the store. *)
Variable wake : Q → World → World.

Definition sleep (ms : Q) : M unit := λ w, Ok tt (wake ms w).

(** ** Mutex primitive ([src/db.ts]) *)

(** The [while (true)] loop of [aquireLock]; [fuel] bounds the polls. *)
Fixpoint aquireLock_poll (fuel : nat) (name : string) : M unit :=
  match fuel with
  | O => halt OutOfFuel
  | S fuel' =>
      mutex ← get (mutexKey name);
      match mutex with
      | None => mret tt
      | Some v =>
          t ← now;
          if plus_lt (parseInt v) (mutexTimeout config) t then mret tt
          else sleep (Qmake (mutexTimeout config) 25);;
               aquireLock_poll fuel' name
      end
  end.

Definition aquireLock (fuel : nat) (name : string) : M unit :=
  aquireLock_poll fuel name;;
  t ← now;
  set (mutexKey name) (VNumber t).

Definition releaseLock (key : string) : M unit := del (mutexKey key).

(** ** Group index manager ([src/endpoints/groups.ts]) *)

Definition aquireListIndexLock (fuel : nat) : M unit :=
  aquireLock fuel listIndexKey.

Definition releaseListIndexLock : M unit := releaseLock listIndexKey.

Definition aquireGroupLock (fuel : nat) (gid : string) : M unit :=
  aquireLock fuel (getGroupIndexKey gid).

Definition releaseGroupLock (gid : string) : M unit :=
  releaseLock (getGroupIndexKey gid).

(** [JSON.parse((await db.get("groups")) || "[]")]. *)
Definition getList : M (list string) :=
  gidsJSON ← get listIndexKey;
  match gidsJSON with
  | None => mret []
  | Some (VList gids) => mret gids
  | Some _ => halt (OffSchema listIndexKey)
  end.

Definition alterListIndex (add remove : option (list string)) : M unit :=
  gids ← getList;
  match gids with
  | _ :: _ =>
      let gids1 := if has_length add then gids ++ default [] add else gids in
      let gids2 := if has_length remove
                   then filter (λ gid, gid ∉ default [] remove) gids1
                   else gids1 in
      set listIndexKey (VList gids2)
  | [] =>
      if has_length add then
        set listIndexKey (VList (default [] add));;
        set listIndexKey (VList (default [] add))
      else set listIndexKey (VList gids)
  end.

Definition addGroup (fuel : nat) (gid id : string) : M unit :=
  created ← now;
  updated ← now;
  aquireListIndexLock fuel;;
  set (getGroupKey gid) (VGroup (mkGroup gid created updated));;
  set (getGroupIndexKey gid) (VList [id]);;
  alterListIndex (Some [gid]) None;;
  releaseListIndexLock.

Definition removeGroup (fuel : nat) (gid : string) : M unit :=
  aquireListIndexLock fuel;;
  del (getGroupKey gid);;
  del (getGroupIndexKey gid);;
  alterListIndex None (Some [gid]);;
  releaseListIndexLock.

(** ** Instance manager ([src/endpoints/instances.ts]) *)

Definition addInstance (gid id : string) (payload : Payload) : M unit :=
  t ← now;
  indexJSON ← get (getGroupIndexKey gid);
  ids ← match indexJSON with
        | Some (VList ids) => mret (ids ++ [id])
        | None => mret [id]
        | Some _ => halt (OffSchema (getGroupIndexKey gid))
        end;
  set (getInstanceKey gid id) (VInstance (mkInstance id gid t t payload));;
  set (getGroupIndexKey gid) (VList ids).

Definition removeInstance (fuel : nat) (gid id : string) : M unit :=
  del (getInstanceKey gid id);;
  indexJSON ← get (getGroupIndexKey gid);
  match indexJSON with
  | Some (VList ids) =>
      match filter (λ item, item ≠ id) ids with
      | [] => removeGroup fuel gid
      | _ :: _ => mret tt
      end
  | None => mret tt
  | Some _ => halt (OffSchema (getGroupIndexKey gid))
  end.

(** [POST /:group/:id]; the result is the response body. *)
Definition post (fuel : nat) (gid id : string) (payload : Payload) : M Payload :=
  aquireGroupLock fuel gid;;
  groupJSON ← get (getGroupKey gid);
  instanceJSON ← get (getInstanceKey gid id);
  match instanceJSON with
  | None => addInstance gid id payload
  | Some (VInstance instance) =>
      t ← now;
      set (getInstanceKey gid id) (VInstance (set_updatedAt instance t))
  | Some _ => halt (OffSchema (getInstanceKey gid id))
  end;;
  match groupJSON with
  | None => addGroup fuel gid id
  | Some (VGroup group) =>
      t ← now;
      set (getGroupKey gid) (VGroup (set_lastUpdatedAt group t))
  | Some _ => halt (OffSchema (getGroupKey gid))
  end;;
  releaseGroupLock gid;;
  mret payload.

(** [DELETE /:group/:id]; the result is the response status. *)
Definition delete_ (fuel : nat) (gid id : string) : M Status :=
  found ← exists_ (getGroupKey gid);
  if found : bool then removeInstance fuel gid id;; mret NO_CONTENT
  else mret NOT_FOUND.

(** ** Garbage collector ([src/endpoints/groups.ts]) *)

(** [shouldGC]; [lastInstancesDispose] is [ctx.state.lastInstancesDispose]
    ([None] when undefined or [NaN]), returned with the verdict. *)
Definition shouldGC (lastInstancesDispose : option Z) : M (bool * option Z) :=
  t ← now;
  if plus_gt lastInstancesDispose (gcInterval config) t
  then mret (false, lastInstancesDispose)
  else
    lastGCJSON ← get last_gc;
    let lastGC := match lastGCJSON with
                  | None => Some 0
                  | Some v => parseInt v
                  end in
    if plus_gt lastGC (gcInterval config) t then mret (false, lastGC)
    else mret (true, lastGC).

(** The callback of [ids.map] in [disposeExpired]: [ids] is the current
    value of the enclosing [let ids], [id] the element visited. *)
Definition disposeExpired_instance (t : Z) (gid : string)
    (ids : list string) (id : string) : M (list string) :=
  instanceJSON ← get (getInstanceKey gid id);
  match instanceJSON with
  | None => mret ids
  | Some (VInstance instance) =>
      if t <? i_updatedAt instance + instanceTimeout config then mret ids
      else del (getInstanceKey gid id);;
           mret (filter (λ item, item ≠ id) ids)
  | Some _ => halt (OffSchema (getInstanceKey gid id))
  end.

(** The callback of [gids.map] in [disposeExpired], threading
    [gidsToRemove]. *)
Definition disposeExpired_group (fuel : nat) (t : Z)
    (gidsToRemove : list string) (gid : string) : M (list string) :=
  aquireGroupLock fuel gid;;
  indexJSON ← get (getGroupIndexKey gid);
  ids0 ← match indexJSON with
         | None => mret []
         | Some (VList ids) => mret ids
         | Some _ => halt (OffSchema (getGroupIndexKey gid))
         end;
  ids ← foldM (disposeExpired_instance t gid) ids0 ids0;
  match ids with
  | [] => mret (gidsToRemove ++ [gid])
  | _ :: _ => set (getGroupIndexKey gid) (VList ids);; mret gidsToRemove
  end.

(** [disposeExpired]; the result is [state.lastInstancesDispose] on return. *)
Definition disposeExpired (fuel : nat) (lastInstancesDispose : option Z)
    : M (option Z) :=
  verdict ← shouldGC lastInstancesDispose;
  if negb (fst verdict) then mret (snd verdict)
  else
    t ← now;
    t1 ← now;
    set last_gc (VNumber t1);;
    aquireListIndexLock fuel;;
    gids ← getList;
    gidsToRemove ← foldM (disposeExpired_group fuel t) [] gids;
    match gidsToRemove with
    | _ :: _ =>
        forM (λ gid, del (getGroupKey gid)) gidsToRemove;;
        forM (λ gid, del (getGroupIndexKey gid)) gidsToRemove;;
        alterListIndex None (Some gidsToRemove)
    | [] => mret tt
    end;;
    t2 ← now;
    set last_gc (VNumber t2);;
    t3 ← now;
    releaseListIndexLock;;
    forM releaseGroupLock gids;;
    mret (Some t3).

(** [GET /:group] up to the array [instances] that the handler awaits: the
    result is the status and that array, with [None] (the [null] of
    [db.get]) for a listed id without a record.  The text the handler
    answers is made from the array by [getGroupAnswer] below. *)
Definition getGroup (fuel : nat) (lastInstancesDispose : option Z)
    (gid : string) : M (Status * list (option Value)) :=
  disposeExpired fuel lastInstancesDispose;;
  indexJSON ← get (getGroupIndexKey gid);
  match indexJSON with
  | None => mret (NOT_FOUND, [])
  | Some (VList ids) =>
      instances ← mapM (λ id, get (getInstanceKey gid id)) ids;
      mret (OK, instances)
  | Some _ => halt (OffSchema (getGroupIndexKey gid))
  end.

(** ** Vocabulary of the lock protocol *)

(** What one poll of [aquireLock] looks for: the key is absent, or holds a
    timestamp older than [mutexTimeout]. *)
Definition observed_free (name : string) (w : World) : Prop :=
  db w !! mutexKey name = None ∨
  ∃ start, db w !! mutexKey name = Some (VNumber start) ∧
           start + mutexTimeout config < clock w.

(** The same test as the loop computes it. *)
Definition lock_open (name : string) (w : World) : bool :=
  match db w !! mutexKey name with
  | None => true
  | Some v => plus_lt (parseInt v) (mutexTimeout config) (clock w)
  end.

(** The world after [n] sleeps of [mutexTimeout / 25]. *)
Fixpoint naps (n : nat) (w : World) : World :=
  match n with
  | O => w
  | S n' => naps n' (wake (Qmake (mutexTimeout config) 25) w)
  end.

(** The write that claims the mutex. *)
Definition claim (name : string) (w : World) : World :=
  mkWorld (<[mutexKey name := VNumber (clock w)]> (db w)) (clock w).

(** ** Vocabulary of the sweep *)

(** A key that holds an instance record or nothing. *)
Definition instance_or_none (w : World) (k : string) : Prop :=
  match db w !! k with
  | None | Some (VInstance _) => True
  | Some _ => False
  end.

(** What the sweep does to an expired record: the key is deleted and the id
    filtered out of the in-memory index. *)
Definition swept (gid : string) (ids : list string) (id : string)
    (w : World) : Outcome (list string) :=
  Ok (filter (λ item, item ≠ id) ids)
     (mkWorld (delete (getInstanceKey gid id) (db w)) (clock w)).

(** ** Sequences of public operations *)

Inductive Op :=
| Upsert (gid id : string) (payload : Payload)
| Remove (gid id : string)
| Sweep (lastInstancesDispose : option Z) (gid : string)
| Tick (ms : Z).

(** One request served alone: [Upsert] is [POST /:group/:id], [Remove] is
    [DELETE /:group/:id], [Sweep] is the [GET /:group] that runs the GC,
    with the value its request state has for [lastInstancesDispose];
    [Tick] lets time pass between requests. *)
Definition serve (fuel : nat) (op : Op) : M unit :=
  match op with
  | Upsert gid id payload => post fuel gid id payload;; mret tt
  | Remove gid id => delete_ fuel gid id;; mret tt
  | Sweep lastInstancesDispose gid =>
      getGroup fuel lastInstancesDispose gid;; mret tt
  | Tick ms => λ w, Ok tt (mkWorld (db w) (clock w + Z.max 0 ms))
  end.

Definition serveAll (fuel : nat) (ops : list Op) : M unit :=
  forM (serve fuel) ops.

End Core.

(** The store before the first request, at time [t0]. *)
Definition emptyWorld (t0 : Z) : World := mkWorld ∅ t0.

(** A world is reachable when some sequence of requests, served one after
    the other, leads to it from the empty store. *)
Definition reachable (config : TConfig) (wake : Q → World → World)
    (w : World) : Prop :=
  ∃ fuel ops t0, serveAll config wake fuel ops (emptyWorld t0) = Ok tt w.

(** The index of a group, when the store has one. *)
Definition indexOf (w : World) (gid : string) : option (list string) :=
  match db w !! getGroupIndexKey gid with
  | Some (VList ids) => Some ids
  | _ => None
  end.

(** A quiet environment: a sleeper wakes [ms] later, rounded up, to an
    unchanged store. *)
Definition quiet (ms : Q) (w : World) : World :=
  mkWorld (db w) (clock w + (Qnum ms + Z.pos (Qden ms) - 1) / Z.pos (Qden ms)).

(** The durations of [config.ts]: [gcInterval] and [instanceTimeout] of
    [60 * 1000], [mutexTimeout] of [2 * 1000]. *)
Definition demoConfig : TConfig := mkConfig 60000 60000 2000.

(** ** Vocabulary of frames *)


(** The key of the global list holds a list or nothing. *)
Definition list_or_none (w : World) : Prop :=
  match db w !! listIndexKey with
  | None | Some (VList _) => True
  | Some _ => False
  end.

(** The store does not change while a caller sleeps. *)
Definition quiet_store (wake : Q → World → World) : Prop :=
  ∀ ms w, db (wake ms w) = db w.

(** ** Sample worlds *)

(** Group [g] with the two instances [a] and [b], as two upserts at time
    [1000] leave the store. *)
Definition twoInstances : World :=
  mkWorld
    (<[listIndexKey := VList ["g"]]>
     (<[getGroupKey "g" := VGroup (mkGroup "g" 1000 1000)]>
      (<[getGroupIndexKey "g" := VList ["a"; "b"]]>
       (<[getInstanceKey "g" "a" := VInstance (mkInstance "a" "g" 1000 1000 "{}")]>
        (<[getInstanceKey "g" "b" := VInstance (mkInstance "b" "g" 1000 1000 "{}")]>
         ∅)))))
    1000.

(** Group [g] whose index lists [a], with no record for [a], at a time
    when the sweep is due. *)
Definition orphanWorld : World :=
  mkWorld
    (<[listIndexKey := VList ["g"]]>
     (<[getGroupKey "g" := VGroup (mkGroup "g" 1000 1000)]>
      (<[getGroupIndexKey "g" := VList ["a"]]> ∅)))
    70000.

(** Group [g] with the single instance [a], last seen at [1000], at time
    [61000]: exactly [instanceTimeout] of [demoConfig] later. *)
Definition oneInstance : World :=
  mkWorld
    (<[listIndexKey := VList ["g"]]>
     (<[getGroupKey "g" := VGroup (mkGroup "g" 1000 1000)]>
      (<[getGroupIndexKey "g" := VList ["a"]]>
       (<[getInstanceKey "g" "a" := VInstance (mkInstance "a" "g" 1000 1000 "{}")]>
        ∅))))
    61000.

(** The list lock taken at [1000] and still held at [1000]. *)
Definition heldWorld : World :=
  mkWorld {[mutexKey listIndexKey := VNumber 1000]} 1000.

(** Two upserts, the removal of the first instance, and its upsert again. *)
Definition duplicateOps : list Op :=
  [Upsert "g" "a" "{}"; Upsert "g" "b" "{}"; Remove "g" "a";
   Upsert "g" "a" "{}"].

(** The store [removeGroup] leaves, from the world [w1] in which the list
    lock was taken and the list [gids] kept. *)
Definition groupRemoved (g : string) (gids : list string) (w1 : World) : World :=
  mkWorld
    (delete (mutexKey listIndexKey)
       (<[listIndexKey := VList gids]>
          (delete (getGroupIndexKey g) (delete (getGroupKey g) (db w1)))))
    (clock w1).

(** ** The answer of a fetch *)

(** The body [`[${instances.join(",")}]`] of [GET /:group]: [text] is the
    string under which a value is stored, and [join] renders [null] as the
    empty string. *)
Definition joinBody (text : Value → string) (instances : list (option Value))
    : string :=
  "[" +:+ String.concat "," (map (λ o, from_option text "" o) instances)
      +:+ "]".

(** [GET /:group] in full: the status and, when one is set, the body. *)
Definition getGroupAnswer (text : Value → string) (config : TConfig)
    (wake : Q → World → World) (fuel : nat) (lastInstancesDispose : option Z)
    (gid : string) : M (Status * option string) :=
  r ← getGroup config wake fuel lastInstancesDispose gid;
  match fst r with
  | OK => mret (OK, Some (joinBody text (snd r)))
  | status => mret (status, None)
  end.

(** ** Vocabulary of time *)

(** A sleep of [ms] lasts at least [ms]: the clock the sleeper wakes to has
    advanced by no less than the duration asked for. *)
Definition sleeps_long_enough (wake : Q → World → World) : Prop :=
  ∀ ms w, Qnum ms ≤ Z.pos (Qden ms) * (clock (wake ms w) - clock w).

(** A contended environment: whenever the caller sleeps, another process
    takes the list lock afresh, 80 ms later. *)
Definition busy (ms : Q) (w : World) : World :=
  mkWorld (<[mutexKey listIndexKey := VNumber (clock w + 80)]> (db w))
          (clock w + 80).

(** The store with the mutex of [name] gone. *)
Definition unlocked (name : string) (w : World) : World :=
  mkWorld (delete (mutexKey name) (db w)) (clock w).

(** ** More sample worlds *)

(** A store at rest whose global list names the group [h] alone. *)
Definition otherGroupWorld : World :=
  mkWorld {[listIndexKey := VList ["h"]]} 1000.

(** [orphanWorld] at a time when the sweep is not yet due. *)
Definition orphanEarly : World := mkWorld (db orphanWorld) 1000.

(** What the sweep at [61000] leaves of [oneInstance]. *)
Definition sweptWorld : World :=
  mkWorld (<[last_gc := VNumber 61000]> {[listIndexKey := VList []]}) 61000.

(** ** Vocabulary of upserts *)

(** The index after the upsert of [id]: appended unless already listed. *)
Definition addNew (ids : list string) (id : string) : list string :=
  if decide (id ∈ ids) then ids else ids ++ [id].

(** Group [g] at rest with index [ids]: no lock held on it or on the list,
    no id listed twice, an instance record for exactly the listed ids, and
    a group record and an index exactly when some id is listed. *)
Definition consistent (g : string) (ids : list string) (w : World) : Prop :=
  db w !! mutexKey (getGroupIndexKey g) = None ∧
  db w !! mutexKey listIndexKey = None ∧
  list_or_none w ∧
  NoDup ids ∧
  (∀ x, match db w !! getInstanceKey g x with
        | Some (VInstance _) => x ∈ ids
        | None => x ∉ ids
        | Some _ => False
        end) ∧
  match ids with
  | [] => db w !! getGroupKey g = None ∧ db w !! getGroupIndexKey g = None
  | _ :: _ => (∃ group, db w !! getGroupKey g = Some (VGroup group)) ∧
              db w !! getGroupIndexKey g = Some (VList ids)
  end.

(** One upsert per id, in order, all into group [g]. *)
Definition upserts (g : string) (payloadOf : string → Payload)
    (ids : list string) : list Op :=
  map (λ id, Upsert g id (payloadOf id)) ids.

(** ** Vocabulary of expiry *)

(** The instance [id] of group [gid] has a record in [w] and, at the sweep
    time [t], its [updatedAt + instanceTimeout] is not after [t]. *)
Definition expired_at (config : TConfig) (t : Z) (gid : string) (w : World)
    (id : string) : bool :=
  match db w !! getInstanceKey gid id with
  | Some (VInstance instance) =>
      negb (t <? i_updatedAt instance + instanceTimeout config)
  | _ => false
  end.

(** ** Vocabulary of the gate *)

(** The shared stamp as [shouldGC] reads it:
    [parseInt((await db.get("last_gc")) || "0", 10)]. *)
Definition lastGC (w : World) : option Z :=
  match db w !! last_gc with
  | None => Some 0
  | Some v => parseInt v
  end.

(** The global list as [getList] reads it, when the key is well formed. *)
Definition listed (w : World) (gids : list string) : Prop :=
  db w !! listIndexKey = None ∧ gids = [] ∨
  db w !! listIndexKey = Some (VList gids).

(** ** The listing of groups *)

(** [GET /]; the result is the response body: one entry per listed group
    that has both a record and an index, the record with [instances], the
    decimal text of the index length.  Groups that miss either are left out
    ([results.filter((group) => group)]). *)
Definition getGroups (config : TConfig) (wake : Q → World → World)
    (fuel : nat) (lastInstancesDispose : option Z)
    : M (list (TGroup * string)) :=
  disposeExpired config wake fuel lastInstancesDispose;;
  gids ← getList;
  results ← mapM (λ gid,
    groupJSON ← get (getGroupKey gid);
    indexJSON ← get (getGroupIndexKey gid);
    match groupJSON, indexJSON with
    | None, _ | _, None => mret None
    | Some (VGroup group), Some (VList index) =>
        mret (Some (group, pretty (length index)))
    | Some (VGroup _), Some _ => halt (OffSchema (getGroupIndexKey gid))
    | Some _, Some _ => halt (OffSchema (getGroupKey gid))
    end) gids;
  mret (omap id results).

(** ** Vocabulary of stores built by upserts *)

(** The record a first upsert at time [t0] stores for instance [id]. *)
Definition recordOf (g : string) (payloadOf : string → Payload) (t0 : Z)
    (id : string) : TInstance :=
  mkInstance id g t0 t0 (payloadOf id).

(** The instance records of the ids [ids] of group [g]. *)
Definition records (g : string) (payloadOf : string → Payload) (t0 : Z)
    (ids : list string) : gmap string Value :=
  foldr (λ id m, <[getInstanceKey g id := VInstance (recordOf g payloadOf t0 id)]> m)
        ∅ ids.

(** The store that holds group [g] with the instances [ids], all created at
    [t0], and nothing else; the empty store when there is no instance. *)
Definition groupStore (g : string) (payloadOf : string → Payload) (t0 : Z)
    (ids : list string) : gmap string Value :=
  match ids with
  | [] => ∅
  | _ :: _ =>
      <[listIndexKey := VList [g]]>
        (<[getGroupKey g := VGroup (mkGroup g t0 t0)]>
           (<[getGroupIndexKey g := VList ids]> (records g payloadOf t0 ids)))
  end.

(** * Properties *)

(** ** Strings and keys *)

Lemma string_length_app (s1 s2 : string) :
  String.length (s1 +:+ s2) = (String.length s1 + String.length s2)%nat.
Proof. induction s1 as [|a s1 IH]; simpl; [reflexivity | now rewrite IH]. Qed.


Lemma string_app_assoc (s1 s2 s3 : string) :
  (s1 +:+ s2) +:+ s3 = s1 +:+ (s2 +:+ s3).
Proof.
  induction s1 as [|a s1 IH]; [reflexivity |].
  change (String a ((s1 +:+ s2) +:+ s3) = String a (s1 +:+ (s2 +:+ s3))).
  f_equal. exact IH.
Qed.

Lemma string_app_neq_self (s tail : string) : tail ≠ "" → s ≠ s +:+ tail.
Proof.
  intros Hne H. apply (f_equal String.length) in H.
  rewrite string_length_app in H. destruct tail; [congruence | simpl in H; lia].
Qed.


Lemma getInstanceKey_inj (gid i1 i2 : string) :
  getInstanceKey gid i1 = getInstanceKey gid i2 → i1 = i2.
Proof.
  unfold getInstanceKey. intros H.
  apply (String.app_inj "instance:") in H.
  apply (String.app_inj gid) in H. now apply (String.app_inj ":") in H.
Qed.

(** Keys of different families differ in their first six characters. *)
Ltac keys_differ :=
  unfold getInstanceKey, getGroupKey, getGroupIndexKey, listIndexKey,
    mutexKey, last_gc;
  simpl; discriminate.

(** C10 — the key mapper is not injective across entities: an instance id
    with a colon makes two distinct (group, instance) pairs share one
    instance key, and the record key of group [g ++ ":instances"] is the
    index key of group [g]. *)
Theorem key_space_aliases :
  (∀ g i j : string,
      (g, i +:+ ":" +:+ j) ≠ (g +:+ ":" +:+ i, j) ∧
      getInstanceKey g (i +:+ ":" +:+ j) = getInstanceKey (g +:+ ":" +:+ i) j) ∧
  (∀ g1 : string,
      let g2 := g1 +:+ ":instances" in
      g1 ≠ g2 ∧ getGroupKey g2 = getGroupIndexKey g1).
Proof.
  split.
  - intros g i j. split.
    + intros H. injection H as H _. revert H.
      apply string_app_neq_self. destruct i; discriminate.
    + unfold getInstanceKey. now rewrite !string_app_assoc.
  - intros g1 g2. split.
    + apply string_app_neq_self. discriminate.
    + reflexivity.
Qed.

(** The colliding keys of the smallest such pairs. *)
Example key_space_aliases_ex :
  getInstanceKey "a" "b:c" = getInstanceKey "a:b" "c" ∧
  getGroupKey "a:instances" = getGroupIndexKey "a".
Proof. split; reflexivity. Qed.

(** ** Running store programs *)

Lemma bind_run {A B} (m : M A) (f : A → M B) (w : World) :
  (m ≫= f) w = match m w with
               | Ok a w' => f a w'
               | Stop h => Stop h
               end.
Proof. reflexivity. Qed.

Lemma bind_Ok {A B} (m : M A) (f : A → M B) (w w' : World) (a : A) :
  m w = Ok a w' → (m ≫= f) w = f a w'.
Proof. intros H. now rewrite bind_run, H. Qed.

Lemma bind_Ok_inv {A B} (m : M A) (f : A → M B) (w w'' : World) (b : B) :
  (m ≫= f) w = Ok b w'' → ∃ a w', m w = Ok a w' ∧ f a w' = Ok b w''.
Proof.
  rewrite bind_run. destruct (m w) as [a w'|h]; [eauto | discriminate].
Qed.

(** ** The mutex *)

Section Mutex.

Variable config : TConfig.
Variable wake : Q → World → World.

Lemma lock_open_spec (name : string) (w : World) :
  lock_open config name w = true ↔ observed_free config name w.
Proof.
  unfold lock_open, observed_free.
  destruct (db w !! mutexKey name) as [v|] eqn:Hv.
  - split.
    + intros H. right. destruct v; simpl in H; try discriminate.
      exists n. split; [reflexivity | lia].
    + intros [H | (start & H & Hlt)]; [discriminate |].
      injection H as ->. simpl. lia.
  - split; [now left | reflexivity].
Qed.

Lemma aquireLock_poll_step (fuel : nat) (name : string) (w : World) :
  aquireLock_poll config wake (S fuel) name w =
  if lock_open config name w then Ok tt w
  else aquireLock_poll config wake fuel name
         (wake (Qmake (mutexTimeout config) 25) w).
Proof.
  unfold lock_open. simpl. rewrite bind_run. unfold get.
  destruct (db w !! mutexKey name) as [v|]; [| reflexivity].
  rewrite bind_run. unfold now.
  destruct (plus_lt (parseInt v) (mutexTimeout config) (clock w));
    reflexivity.
Qed.

Lemma aquireLock_poll_spec (fuel : nat) (name : string) (w w' : World) :
  aquireLock_poll config wake fuel name w = Ok tt w' ↔
  ∃ n, (n < fuel)%nat ∧
       (∀ j, (j < n)%nat → lock_open config name (naps config wake j w) = false) ∧
       lock_open config name (naps config wake n w) = true ∧
       w' = naps config wake n w.
Proof.
  revert w. induction fuel as [|fuel IH]; intros w.
  - split; [discriminate | intros (n & Hn & _); lia].
  - rewrite aquireLock_poll_step.
    destruct (lock_open config name w) eqn:Hopen.
    + split.
      * intros [= <-]. exists O. repeat split; [lia | intros; lia | exact Hopen].
      * intros (n & _ & Hheld & _ & ->). destruct n as [|n]; [reflexivity |].
        specialize (Hheld O ltac:(lia)). simpl in Hheld. congruence.
    + rewrite IH. split.
      * intros (n & Hn & Hheld & Hfree & ->). exists (S n).
        repeat split; [lia | | exact Hfree].
        intros [|j] Hj; [exact Hopen | apply Hheld; lia].
      * intros (n & Hn & Hheld & Hfree & ->). destruct n as [|n].
        { simpl in Hfree. congruence. }
        exists n. repeat split; [lia | | exact Hfree].
        intros j Hj. apply (Hheld (S j)). lia.
Qed.

Lemma aquireLock_run (fuel : nat) (name : string) (w : World) :
  aquireLock config wake fuel name w =
  match aquireLock_poll config wake fuel name w with
  | Ok _ w1 => Ok tt (claim name w1)
  | Stop h => Stop h
  end.
Proof.
  unfold aquireLock. rewrite bind_run.
  destruct (aquireLock_poll config wake fuel name w); reflexivity.
Qed.

(** A lock seen free is claimed at the first poll. *)
Lemma aquireLock_open (fuel : nat) (name : string) (w : World) :
  lock_open config name w = true →
  aquireLock config wake (S fuel) name w = Ok tt (claim name w).
Proof.
  intros H. now rewrite aquireLock_run, aquireLock_poll_step, H.
Qed.

(** C4 — [aquireLock] returns exactly when some poll, the first after [n]
    sleeps of [mutexTimeout / 25], saw [mutex:<name>] absent or holding a
    timestamp older than [mutexTimeout]; every earlier poll saw the lock
    held and slept; and the world it returns has the current timestamp
    written to [mutex:<name>]. *)
Theorem aquireLock_returns (fuel : nat) (name : string) (w w' : World) :
  aquireLock config wake fuel name w = Ok tt w' ↔
  ∃ n, (n < fuel)%nat ∧
       (∀ j, (j < n)%nat → ¬ observed_free config name (naps config wake j w)) ∧
       observed_free config name (naps config wake n w) ∧
       w' = claim name (naps config wake n w).
Proof.
  rewrite aquireLock_run. split.
  - destruct (aquireLock_poll config wake fuel name w) as [[] w1|h] eqn:Hpoll;
      [| discriminate].
    intros [= <-]. apply aquireLock_poll_spec in Hpoll.
    destruct Hpoll as (n & Hn & Hheld & Hfree & ->). exists n.
    repeat split; [exact Hn | | now apply lock_open_spec].
    intros j Hj Hf. apply lock_open_spec in Hf. rewrite Hheld in Hf by exact Hj.
    discriminate.
  - intros (n & Hn & Hheld & Hfree & ->).
    assert (Hpoll : aquireLock_poll config wake fuel name w
                    = Ok tt (naps config wake n w)).
    { apply aquireLock_poll_spec. exists n.
      repeat split; [exact Hn | | now apply lock_open_spec].
      intros j Hj. specialize (Hheld j Hj).
      destruct (lock_open config name (naps config wake j w)) eqn:E;
        [| reflexivity].
      exfalso. apply Hheld. now apply lock_open_spec. }
    now rewrite Hpoll.
Qed.

(** The loop has no failure path: short of a return it only runs out of
    polls, and it does so for every budget when no poll sees the lock free. *)
Lemma aquireLock_poll_Stop (fuel : nat) (name : string) (w : World) (h : Halt) :
  aquireLock_poll config wake fuel name w = Stop h → h = OutOfFuel.
Proof.
  revert w. induction fuel as [|fuel IH]; intros w.
  - now intros [= <-].
  - rewrite aquireLock_poll_step.
    destruct (lock_open config name w); [discriminate | apply IH].
Qed.

Lemma aquireLock_starves (name : string) (w : World) :
  (∀ n, ¬ observed_free config name (naps config wake n w)) →
  ∀ fuel, aquireLock config wake fuel name w = Stop OutOfFuel.
Proof.
  intros Hheld fuel. rewrite aquireLock_run.
  destruct (aquireLock_poll config wake fuel name w) as [[] w1|h] eqn:Hpoll.
  - apply aquireLock_poll_spec in Hpoll.
    destruct Hpoll as (n & _ & _ & Hfree & _).
    apply lock_open_spec in Hfree. now apply Hheld in Hfree.
  - now apply aquireLock_poll_Stop in Hpoll as ->.
Qed.

(** Whatever the polls see, a return comes with the claim written. *)
Lemma aquireLock_poll_claims (fuel : nat) (name : string) (w w' : World) :
  aquireLock config wake fuel name w = Ok tt w' →
  ∃ n, w' = claim name (naps config wake n w).
Proof.
  rewrite aquireLock_run.
  destruct (aquireLock_poll config wake fuel name w) as [[] w1|h] eqn:Hpoll;
    [| discriminate].
  intros [= <-]. apply aquireLock_poll_spec in Hpoll.
  destruct Hpoll as (n & _ & _ & _ & ->). now exists n.
Qed.

End Mutex.

(** ** The sweep *)

Section Sweep.

Variable config : TConfig.
Variable wake : Q → World → World.

Lemma disposeExpired_instance_run (t : Z) (gid : string) (ids : list string)
    (id : string) (w : World) :
  disposeExpired_instance config t gid ids id w =
  match db w !! getInstanceKey gid id with
  | None => Ok ids w
  | Some (VInstance r) =>
      if t <? i_updatedAt r + instanceTimeout config then Ok ids w
      else swept gid ids id w
  | Some _ => Stop (OffSchema (getInstanceKey gid id))
  end.
Proof.
  unfold disposeExpired_instance. rewrite bind_run. unfold get.
  destruct (db w !! getInstanceKey gid id) as [[r| | |]|]; try reflexivity.
  destruct (t <? i_updatedAt r + instanceTimeout config); reflexivity.
Qed.

(** C7 — the expiry test of the sweep is inclusive: a record whose
    [updatedAt + instanceTimeout] equals the sweep's [now] is deleted and its
    id dropped; the record is left alone exactly when
    [updatedAt + instanceTimeout > now], and swept exactly when
    [updatedAt + instanceTimeout <= now]. *)
Theorem gc_expiry_boundary (t : Z) (gid : string) (ids : list string)
    (id : string) (w : World) (r : TInstance) :
  db w !! getInstanceKey gid id = Some (VInstance r) →
  let run := disposeExpired_instance config t gid ids id w in
  (i_updatedAt r + instanceTimeout config = t → run = swept gid ids id w) ∧
  (run = Ok ids w ↔ i_updatedAt r + instanceTimeout config > t) ∧
  (run = swept gid ids id w ↔ i_updatedAt r + instanceTimeout config ≤ t).
Proof.
  intros Hr run. subst run. rewrite disposeExpired_instance_run, Hr.
  assert (Hne : swept gid ids id w ≠ Ok ids w).
  { unfold swept. intros [= _ Hdb].
    apply (f_equal (λ u, db u !! getInstanceKey gid id)) in Hdb.
    simpl in Hdb. rewrite lookup_delete_eq, Hr in Hdb. discriminate. }
  destruct (Z.ltb_spec t (i_updatedAt r + instanceTimeout config)) as [Hlt|Hge].
  - repeat split; try lia; try reflexivity.
    intros H. symmetry in H. contradiction.
  - repeat split; try lia; try reflexivity.
    intros H. contradiction.
Qed.

(** The instances of one group, visited in index order: ids without a record
    stay, the store only loses instance records of this group. *)
Lemma sweep_instances (t : Z) (gid : string) (rest cur : list string)
    (w : World) :
  (∀ x, x ∈ rest → instance_or_none w (getInstanceKey gid x)) →
  ∃ cur' w',
    foldM (disposeExpired_instance config t gid) cur rest w = Ok cur' w' ∧
    clock w' = clock w ∧
    (∀ k, db w' !! k = db w !! k ∨ db w' !! k = None) ∧
    (∀ k, (∀ x, k ≠ getInstanceKey gid x) → db w' !! k = db w !! k) ∧
    (∀ x, x ∈ cur → db w !! getInstanceKey gid x = None → x ∈ cur').
Proof.
  revert cur w. induction rest as [|x rest IH]; intros cur w Hshape.
  - exists cur, w. simpl. repeat split; auto.
  - simpl. rewrite bind_run, disposeExpired_instance_run.
    assert (Hrest : ∀ y, y ∈ rest → instance_or_none w (getInstanceKey gid y)).
    { intros y Hy. apply Hshape. now right. }
    pose proof (Hshape x ltac:(now left)) as Hx. unfold instance_or_none in Hx.
    destruct (db w !! getInstanceKey gid x) as [[r| | |]|] eqn:Hlook;
      try contradiction; [| exact (IH cur w Hrest)].
    destruct (t <? i_updatedAt r + instanceTimeout config);
      [exact (IH cur w Hrest) |].
    unfold swept.
    set (w1 := mkWorld (delete (getInstanceKey gid x) (db w)) (clock w)).
    assert (Hshrink : ∀ k, db w1 !! k = db w !! k ∨ db w1 !! k = None).
    { intros k. simpl. destruct (decide (getInstanceKey gid x = k)) as [<-|Hne].
      - right. apply lookup_delete_eq.
      - left. now apply lookup_delete_ne. }
    destruct (IH (filter (λ item, item ≠ x) cur) w1) as
      (cur' & w' & Hrun & Hclock & Hsub & Hframe & Hkeep).
    { intros y Hy. unfold instance_or_none.
      destruct (Hshrink (getInstanceKey gid y)) as [-> | ->];
        [now apply Hrest | exact I]. }
    exists cur', w'. split; [exact Hrun |]. split; [exact Hclock |].
    split; [| split].
    + intros k. destruct (Hsub k) as [-> | ->]; [apply Hshrink | now right].
    + intros k Hk. rewrite Hframe by exact Hk. simpl.
      apply lookup_delete_ne. apply not_eq_sym, Hk.
    + intros y Hy Hnone. apply Hkeep.
      * apply list_elem_of_filter. split; [| exact Hy].
        intros ->. congruence.
      * destruct (Hshrink (getInstanceKey gid y)) as [-> | ->];
          [exact Hnone | reflexivity].
Qed.

(** C3, as the code has it — an id of the index whose instance record is
    absent counts as alive: the sweep of its group keeps it in the in-memory
    index, writes that index back with the id in it and does not mark the
    group for removal. *)
Theorem gc_keeps_ids_without_record (fuel : nat) (t : Z)
    (gidsToRemove : list string) (gid id : string) (ids0 : list string)
    (w w1 : World) :
  aquireGroupLock config wake fuel gid w = Ok tt w1 →
  db w1 !! getGroupIndexKey gid = Some (VList ids0) →
  (∀ x, x ∈ ids0 → instance_or_none w1 (getInstanceKey gid x)) →
  id ∈ ids0 →
  db w1 !! getInstanceKey gid id = None →
  ∃ ids w2,
    disposeExpired_group config wake fuel t gidsToRemove gid w
      = Ok gidsToRemove w2 ∧
    db w2 !! getGroupIndexKey gid = Some (VList ids) ∧
    id ∈ ids.
Proof.
  intros Hlock Hindex Hshape Hin Hnone.
  destruct (sweep_instances t gid ids0 ids0 w1 Hshape)
    as (ids & w' & Hrun & _ & _ & _ & Hkeep).
  specialize (Hkeep id Hin Hnone).
  unfold disposeExpired_group.
  rewrite (bind_Ok _ _ _ _ _ Hlock), bind_run. unfold get at 1.
  rewrite Hindex, bind_run. unfold mret at 1, M_ret at 1.
  rewrite (bind_Ok _ _ _ _ _ Hrun).
  destruct ids as [|y ids]; [now apply not_elem_of_nil in Hkeep |].
  eexists (y :: ids), _. split; [reflexivity |]. split; [| exact Hkeep].
  simpl. apply lookup_insert_eq.
Qed.

End Sweep.

(** ** The list of groups *)

Lemma filter_not_in_nil (l : list string) :
  filter (λ gid, gid ∉ @nil string) l = l.
Proof.
  induction l as [|x l IH]; [reflexivity |].
  rewrite filter_cons_True by apply not_elem_of_nil. now rewrite IH.
Qed.

Lemma has_length_false (xs : option (list string)) :
  has_length xs = false → default [] xs = [].
Proof. destruct xs as [[|x xs]|]; [reflexivity | discriminate | reflexivity]. Qed.

Lemma getList_run (w : World) :
  getList w = match db w !! listIndexKey with
              | None => Ok [] w
              | Some (VList gids) => Ok gids w
              | Some _ => Stop (OffSchema listIndexKey)
              end.
Proof.
  unfold getList. rewrite bind_run. unfold get.
  destruct (db w !! listIndexKey) as [[| | |]|]; reflexivity.
Qed.

(** What [alterListIndex] writes, by the list it reads: on a non-empty list,
    the additions appended and then the removals filtered out; on an empty
    or missing list, the additions as they are. *)
Lemma alterListIndex_run (add remove : option (list string))
    (gids : list string) (w : World) :
  getList w = Ok gids w →
  alterListIndex add remove w =
  Ok tt (mkWorld
           (<[listIndexKey :=
                VList (match gids with
                       | [] => default [] add
                       | _ :: _ => filter (λ gid, gid ∉ default [] remove)
                                     (gids ++ default [] add)
                       end)]> (db w))
           (clock w)).
Proof.
  intros Hlist. unfold alterListIndex. rewrite (bind_Ok _ _ _ _ _ Hlist).
  destruct gids as [|x gids].
  - destruct (has_length add) eqn:Hadd.
    + rewrite bind_run. unfold set. simpl. now rewrite insert_insert_eq.
    + now rewrite (has_length_false _ Hadd).
  - destruct (has_length add) eqn:Hadd, (has_length remove) eqn:Hrem;
      rewrite ?(has_length_false _ Hadd), ?(has_length_false _ Hrem),
        ?app_nil_r, ?filter_not_in_nil; reflexivity.
Qed.

(** C2 at the input where it fails — on an empty store, adding and removing
    the same group id writes a list that still holds the id: the branch for
    an empty list copies the additions and never applies the removals. *)
Example alterListIndex_empty_ignores_remove :
  alterListIndex (Some ["g"]) (Some ["g"]) (emptyWorld 0)
  = Ok tt (mkWorld {[listIndexKey := VList ["g"]]} 0).
Proof. reflexivity. Qed.

(** On a list that is not empty the same call does remove the id. *)
Example alterListIndex_nonempty_removes :
  alterListIndex (Some ["g"]) (Some ["g"])
    (mkWorld {[listIndexKey := VList ["h"]]} 0)
  = Ok tt (mkWorld {[listIndexKey := VList ["h"]]} 0).
Proof. reflexivity. Qed.

(** ** Instances *)

Section Instances.

Variable config : TConfig.
Variable wake : Q → World → World.

(** [removeInstance] when another id stays in the index: the record is
    deleted and nothing else is written; the index stays as it was. *)
Lemma removeInstance_not_last (fuel : nat) (gid id other : string)
    (ids : list string) (w : World) :
  db w !! getGroupIndexKey gid = Some (VList ids) →
  other ∈ ids → other ≠ id →
  removeInstance config wake fuel gid id w
  = Ok tt (mkWorld (delete (getInstanceKey gid id) (db w)) (clock w)).
Proof.
  intros Hindex Hin Hne. unfold removeInstance.
  rewrite bind_run. unfold del at 1. rewrite bind_run. unfold get. simpl.
  rewrite lookup_delete_ne by keys_differ. rewrite Hindex.
  destruct (filter (λ item, item ≠ id) ids) as [|y l] eqn:Hf; [| reflexivity].
  assert (Hmem : other ∈ filter (λ item, item ≠ id) ids)
    by now apply list_elem_of_filter.
  rewrite Hf in Hmem. now apply not_elem_of_nil in Hmem.
Qed.

(** [removeInstance] on a group without an index only deletes the record. *)
Lemma removeInstance_no_index (fuel : nat) (gid id : string) (w : World) :
  db w !! getGroupIndexKey gid = None →
  removeInstance config wake fuel gid id w
  = Ok tt (mkWorld (delete (getInstanceKey gid id) (db w)) (clock w)).
Proof.
  intros Hindex. unfold removeInstance.
  rewrite bind_run. unfold del at 1. rewrite bind_run. unfold get. simpl.
  rewrite lookup_delete_ne by keys_differ. now rewrite Hindex.
Qed.

End Instances.

Arguments getInstanceKey : simpl never.
Arguments getGroupKey : simpl never.
Arguments getGroupIndexKey : simpl never.
Arguments mutexKey : simpl never.

(** C1 at an input where it fails — removing [a] from a group whose index
    is [a; b] deletes the record of [a] but writes no index: the store still
    lists [a] in the group's index. *)
Example removeInstance_leaves_index :
  ∃ w', removeInstance demoConfig quiet 1 "g" "a" twoInstances = Ok tt w' ∧
        db w' !! getInstanceKey "g" "a" = None ∧
        indexOf w' "g" = Some ["a"; "b"].
Proof.
  eexists. split.
  - apply (removeInstance_not_last _ _ _ _ _ "b" ["a"; "b"]);
      [reflexivity | set_solver | discriminate].
  - split; reflexivity.
Qed.

Section Handlers.

Variable config : TConfig.
Variable wake : Q → World → World.

(** C8 — a heartbeat, that is an upsert that finds the instance record and
    the group record once the group lock is taken (in world [w1]), rewrites
    the instance with only [updatedAt] set to now and the group record with
    only [lastUpdatedAt] set to now, releases the lock and changes nothing
    else; the payload sent is echoed, not stored. *)
Theorem heartbeat_touches_timestamps_only (fuel : nat) (gid id : string)
    (payload : Payload) (w w1 : World) (instance : TInstance) (group : TGroup) :
  aquireGroupLock config wake fuel gid w = Ok tt w1 →
  db w1 !! getInstanceKey gid id = Some (VInstance instance) →
  db w1 !! getGroupKey gid = Some (VGroup group) →
  let instance' := mkInstance (i_id instance) (i_group instance)
                     (i_createdAt instance) (clock w1) (i_meta instance) in
  let group' := mkGroup (g_group group) (g_createdAt group) (clock w1) in
  ∃ w2,
    post config wake fuel gid id payload w = Ok payload w2 ∧
    db w2 !! getInstanceKey gid id = Some (VInstance instance') ∧
    db w2 !! getGroupKey gid = Some (VGroup group') ∧
    db w2 = delete (mutexKey (getGroupIndexKey gid))
              (<[getGroupKey gid := VGroup group']>
                 (<[getInstanceKey gid id := VInstance instance']> (db w1))) ∧
    clock w2 = clock w1.
Proof.
  intros Hlock Hinst Hgroup instance' group'.
  eexists. split.
  - unfold post. rewrite (bind_Ok _ _ _ _ _ Hlock).
    rewrite bind_run. unfold get at 1. simpl. rewrite Hgroup.
    rewrite bind_run. unfold get at 1. simpl. rewrite Hinst.
    reflexivity.
  - simpl. split; [| split; [| split; reflexivity]].
    + rewrite lookup_delete_ne by keys_differ.
      rewrite lookup_insert_ne by keys_differ. apply lookup_insert_eq.
    + rewrite lookup_delete_ne by keys_differ. apply lookup_insert_eq.
Qed.

End Handlers.

(** ** Keys a program never creates *)












Section Frames.

Variable config : TConfig.
Variable wake : Q → World → World.
Hypothesis wake_quiet : quiet_store wake.

Lemma naps_quiet (n : nat) (w : World) : db (naps config wake n w) = db w.
Proof.
  revert w. induction n as [|n IH]; intros w; simpl; [reflexivity |].
  now rewrite IH, wake_quiet.
Qed.

(** Under a quiet store a lock acquisition changes only its mutex key. *)
Lemma aquireLock_frame (fuel : nat) (name : string) (w w' : World) :
  aquireLock config wake fuel name w = Ok tt w' →
  db w' = <[mutexKey name := VNumber (clock w')]> (db w).
Proof.
  intros H. apply aquireLock_poll_claims in H.
  destruct H as (n & ->). simpl. now rewrite naps_quiet.
Qed.







End Frames.

(** ** Removing the last instance *)

Section Removal.

Variable config : TConfig.
Variable wake : Q → World → World.

Lemma removeGroup_run (fuel : nat) (g : string) (w w1 : World) :
  aquireListIndexLock config wake fuel w = Ok tt w1 →
  removeGroup config wake fuel g w =
  match db w1 !! listIndexKey with
  | None => Ok tt (groupRemoved g [] w1)
  | Some (VList gids) =>
      Ok tt (groupRemoved g (filter (λ gid, gid ∉ [g]) gids) w1)
  | Some _ => Stop (OffSchema listIndexKey)
  end.
Proof.
  intros Hlock. unfold removeGroup. rewrite (bind_Ok _ _ _ _ _ Hlock).
  rewrite bind_run. unfold del at 1. rewrite bind_run. unfold del at 1.
  simpl db. simpl clock.
  set (w3 := mkWorld (delete (getGroupIndexKey g)
                        (delete (getGroupKey g) (db w1))) (clock w1)).
  assert (Hl : db w3 !! listIndexKey = db w1 !! listIndexKey).
  { subst w3. simpl. rewrite lookup_delete_ne by keys_differ.
    now rewrite lookup_delete_ne by keys_differ. }
  rewrite bind_run.
  destruct (db w1 !! listIndexKey) as [[| |gids|]|] eqn:E.
  1,2,4: unfold alterListIndex; now rewrite bind_run, getList_run, Hl.
  - rewrite (alterListIndex_run None (Some [g]) gids w3)
      by now rewrite getList_run, Hl.
    destruct gids as [|x gids]; [reflexivity |].
    simpl default. now rewrite app_nil_r.
  - rewrite (alterListIndex_run None (Some [g]) [] w3)
      by now rewrite getList_run, Hl.
    reflexivity.
Qed.



(** When every id of the index is [i], removing [i] goes on to remove the
    group. *)
Lemma removeInstance_last (fuel : nat) (g i : string) (ids : list string)
    (w : World) :
  db w !! getGroupIndexKey g = Some (VList ids) →
  (∀ x, x ∈ ids → x = i) →
  removeInstance config wake fuel g i w =
  removeGroup config wake fuel g
    (mkWorld (delete (getInstanceKey g i) (db w)) (clock w)).
Proof.
  intros Hindex Hall. unfold removeInstance.
  rewrite bind_run. unfold del at 1. rewrite bind_run. unfold get. simpl.
  rewrite lookup_delete_ne by keys_differ. rewrite Hindex.
  destruct (filter (λ item, item ≠ i) ids) as [|y l] eqn:Hf; [reflexivity |].
  assert (Hy : y ∈ filter (λ item, item ≠ i) ids) by (rewrite Hf; now left).
  apply list_elem_of_filter in Hy. destruct Hy as [Hne Hy].
  now apply Hall in Hy.
Qed.

Hypothesis wake_quiet : quiet_store wake.


End Removal.

(** ** The removal endpoint *)

Section DeleteHandler.

Variable config : TConfig.
Variable wake : Q → World → World.

Lemma delete_absent (fuel : nat) (gid id : string) (w : World) :
  db w !! getGroupKey gid = None →
  delete_ config wake fuel gid id w = Ok NOT_FOUND w.
Proof.
  intros H. unfold delete_. rewrite bind_run. unfold exists_.
  rewrite bool_decide_eq_false_2; [reflexivity |].
  rewrite H. now apply is_Some_None.
Qed.

Lemma delete_present (fuel : nat) (gid id : string) (w : World) :
  is_Some (db w !! getGroupKey gid) →
  delete_ config wake fuel gid id w =
  match removeInstance config wake fuel gid id w with
  | Ok _ w' => Ok NO_CONTENT w'
  | Stop h => Stop h
  end.
Proof.
  intros H. unfold delete_. rewrite bind_run. unfold exists_.
  rewrite bool_decide_eq_true_2 by exact H. rewrite bind_run.
  destruct (removeInstance config wake fuel gid id w); reflexivity.
Qed.

(** C9 — [DELETE /:group/:id] answers not-found exactly when the store has
    nothing under the group key of [gid] (no group record, where that key
    holds nothing but group records), and then writes nothing.  When the
    key is there it answers no-content and removes, whether or not the
    instance has a record: if the index keeps another id (or there is no
    index) the store it leaves is the store found with the instance key
    deleted and nothing else written; if the index lists no other id, with
    the list lock free and the global list well formed, it leaves the
    store with the instance key, the group record and the index deleted,
    the group id filtered out of the global list and the list lock
    released. *)
Theorem delete_not_found_iff_no_group (fuel : nat) (gid id : string)
    (w : World) :
  (db w !! getGroupKey gid = None →
     delete_ config wake fuel gid id w = Ok NOT_FOUND w) ∧
  (∀ status w', delete_ config wake fuel gid id w = Ok status w' →
     (status = NOT_FOUND ↔ db w !! getGroupKey gid = None) ∧
     (status = NO_CONTENT ↔ is_Some (db w !! getGroupKey gid)) ∧
     ((∀ v, db w !! getGroupKey gid = Some v → ∃ group, v = VGroup group) →
      (status = NOT_FOUND ↔
       ¬ ∃ group, db w !! getGroupKey gid = Some (VGroup group)))) ∧
  (is_Some (db w !! getGroupKey gid) →
   (db w !! getGroupIndexKey gid = None ∨
    ∃ ids other, db w !! getGroupIndexKey gid = Some (VList ids) ∧
                 other ∈ ids ∧ other ≠ id) →
   let w' := mkWorld (delete (getInstanceKey gid id) (db w)) (clock w) in
   delete_ config wake fuel gid id w = Ok NO_CONTENT w' ∧
   db w' !! getInstanceKey gid id = None ∧
   (db w !! getInstanceKey gid id = None → w' = w)) ∧
  (is_Some (db w !! getGroupKey gid) →
   ∀ ids gids,
     db w !! getGroupIndexKey gid = Some (VList ids) →
     (∀ x, x ∈ ids → x = id) →
     lock_open config listIndexKey w = true →
     listed w gids →
     let w' := groupRemoved gid (filter (λ x, x ∉ [gid]) gids)
                 (claim listIndexKey
                    (mkWorld (delete (getInstanceKey gid id) (db w)) (clock w))) in
     delete_ config wake (S fuel) gid id w = Ok NO_CONTENT w' ∧
     db w' !! getInstanceKey gid id = None ∧
     db w' !! getGroupKey gid = None ∧
     db w' !! getGroupIndexKey gid = None ∧
     db w' !! listIndexKey = Some (VList (filter (λ x, x ∉ [gid]) gids)) ∧
     db w' !! mutexKey listIndexKey = None).
Proof.
  split; [apply delete_absent |]. split; [| split].
  - intros status w' Hrun.
    assert (Hiff : (status = NOT_FOUND ↔ db w !! getGroupKey gid = None) ∧
                   (status = NO_CONTENT ↔ is_Some (db w !! getGroupKey gid))).
    { destruct (db w !! getGroupKey gid) as [v|] eqn:Hlook.
      - rewrite delete_present in Hrun by (rewrite Hlook; eauto).
        destruct (removeInstance config wake fuel gid id w); [| discriminate].
        injection Hrun as <- <-. split; split; try discriminate; eauto.
      - rewrite delete_absent in Hrun by exact Hlook. injection Hrun as <- <-.
        split; split; try reflexivity; try discriminate.
        intros H. now apply is_Some_None in H. }
    destruct Hiff as [Hnf Hnc]. split; [exact Hnf |]. split; [exact Hnc |].
    intros Hschema. rewrite Hnf. split.
    + intros Hnone (group & Hgroup). congruence.
    + intros Hno. destruct (db w !! getGroupKey gid) as [v|] eqn:Hlook;
        [| reflexivity].
      destruct (Hschema v eq_refl) as (group & ->). exfalso. eauto.
  - intros Hgroup Hindex w'. subst w'. split; [| split].
    + rewrite delete_present by exact Hgroup.
      destruct Hindex as [Hindex | (ids & other & Hindex & Hin & Hne)].
      * now rewrite removeInstance_no_index by exact Hindex.
      * now rewrite (removeInstance_not_last _ _ _ _ _ other ids) by assumption.
    + cbn [db]. apply lookup_delete_eq.
    + intros Hnone. destruct w as [m c]. cbn [db clock] in *. f_equal.
      now apply delete_id.
  - intros Hgroup ids gids Hindex Hall Hopen Hlisted w'.
    set (w0 := mkWorld (delete (getInstanceKey gid id) (db w)) (clock w)) in *.
    assert (Hopen0 : lock_open config listIndexKey w0 = true).
    { unfold lock_open in *. subst w0. cbn [db clock].
      now rewrite lookup_delete_ne by keys_differ. }
    assert (Hl : db (claim listIndexKey w0) !! listIndexKey
                 = db w !! listIndexKey).
    { unfold claim. subst w0. cbn [db].
      rewrite lookup_insert_ne by keys_differ.
      now rewrite lookup_delete_ne by keys_differ. }
    split.
    + rewrite delete_present by exact Hgroup.
      rewrite (removeInstance_last _ _ _ _ _ _ _ Hindex Hall). fold w0.
      rewrite (removeGroup_run config wake (S fuel) gid w0 _
                 (aquireLock_open config wake fuel _ w0 Hopen0)).
      rewrite Hl. subst w'.
      destruct Hlisted as [[-> ->] | ->]; reflexivity.
    + subst w'. unfold groupRemoved, claim. subst w0. cbn [db].
      repeat split.
      * rewrite lookup_delete_ne by keys_differ.
        rewrite lookup_insert_ne by keys_differ.
        rewrite !lookup_delete_ne by keys_differ.
        rewrite lookup_insert_ne by keys_differ. apply lookup_delete_eq.
      * rewrite lookup_delete_ne by keys_differ.
        rewrite lookup_insert_ne by keys_differ.
        apply lookup_delete_None. right. apply lookup_delete_eq.
      * rewrite lookup_delete_ne by keys_differ.
        rewrite lookup_insert_ne by keys_differ. apply lookup_delete_eq.
      * rewrite lookup_delete_ne by keys_differ. apply lookup_insert_eq.
      * apply lookup_delete_eq.
Qed.

End DeleteHandler.

(** ** Duplicates in an index *)

(** C5 at a run where it fails — after upserting [a] and [b] in group [g],
    removing [a] and upserting [a] again, the index of [g] lists [a] twice:
    the removal left [a] in the index, and the upsert, finding no record,
    appended it once more. *)
Example index_duplicate_is_reachable :
  ∃ w, serveAll demoConfig quiet 1 duplicateOps (emptyWorld 1000) = Ok tt w ∧
       reachable demoConfig quiet w ∧
       indexOf w "g" = Some ["a"; "b"; "a"] ∧
       ¬ NoDup ["a"; "b"; "a"].
Proof.
  eexists. split; [vm_compute; reflexivity |]. split; [| split].
  - exists 1%nat, duplicateOps, 1000. vm_compute. reflexivity.
  - vm_compute. reflexivity.
  - intros H. apply NoDup_cons in H. destruct H as [H _].
    apply H. set_solver.
Qed.

(** * Concrete runs *)

(** A lock taken just now is waited for: 26 sleeps of 80 ms pass before the
    holder's 2000 ms are over, then the caller claims it. *)
Lemma aquireLock_returns_witness :
  aquireLock demoConfig quiet 30 listIndexKey heldWorld
  = Ok tt (claim listIndexKey (naps demoConfig quiet 26 heldWorld)) ∧
  ∃ n, (n < 30)%nat ∧
       (∀ j, (j < n)%nat →
          ¬ observed_free demoConfig listIndexKey (naps demoConfig quiet j heldWorld)) ∧
       observed_free demoConfig listIndexKey (naps demoConfig quiet n heldWorld) ∧
       claim listIndexKey (naps demoConfig quiet 26 heldWorld)
       = claim listIndexKey (naps demoConfig quiet n heldWorld).
Proof.
  split; [vm_compute; reflexivity |].
  apply (proj1 (aquireLock_returns demoConfig quiet 30 listIndexKey heldWorld
                  (claim listIndexKey (naps demoConfig quiet 26 heldWorld)))).
  vm_compute. reflexivity.
Defined.

(** The sweep at [61000] meets a record last updated at [1000] with a
    timeout of [60000]: the boundary case, and the record goes. *)
Lemma gc_expiry_boundary_witness :
  db oneInstance !! getInstanceKey "g" "a"
  = Some (VInstance (mkInstance "a" "g" 1000 1000 "{}")) ∧
  1000 + instanceTimeout demoConfig = 61000 ∧
  disposeExpired_instance demoConfig 61000 "g" ["a"] "a" oneInstance
  = swept "g" ["a"] "a" oneInstance.
Proof.
  split; [reflexivity |]. split; [reflexivity |].
  apply (gc_expiry_boundary demoConfig 61000 "g" ["a"] "a" oneInstance
           (mkInstance "a" "g" 1000 1000 "{}")); reflexivity.
Defined.

(** End to end: upserted at [1000], an instance is gone when the fetch at
    [61000] sweeps, and still there when the fetch comes at [60999]. *)
Example gc_expiry_boundary_run :
  (∃ w, serveAll demoConfig quiet 1
          [Upsert "g" "a" "{}"; Tick 60000; Sweep None "g"] (emptyWorld 1000)
        = Ok tt w ∧
        db w !! getInstanceKey "g" "a" = None ∧ indexOf w "g" = None) ∧
  (∃ w, serveAll demoConfig quiet 1
          [Upsert "g" "a" "{}"; Tick 59999; Sweep None "g"] (emptyWorld 1000)
        = Ok tt w ∧
        is_Some (db w !! getInstanceKey "g" "a") ∧ indexOf w "g" = Some ["a"]).
Proof.
  split; eexists; (split; [vm_compute; reflexivity |]);
    split; try (vm_compute; reflexivity).
  vm_compute. eauto.
Qed.

(** C3 as the claim states it, refuted — group [g] lists [a], [a] has no
    record, the sweep is due: the sweep of [g] marks nothing for removal and
    writes the index back with [a] in it, and the whole sweep leaves the
    group, its index and the global list in place. *)
Lemma gc_keeps_orphan_counterexample :
  db orphanWorld !! getInstanceKey "g" "a" = None ∧
  indexOf orphanWorld "g" = Some ["a"] ∧
  disposeExpired_group demoConfig quiet 1 70000 [] "g" orphanWorld
  = Ok [] (mkWorld
             (<[getGroupIndexKey "g" := VList ["a"]]>
                (<[mutexKey (getGroupIndexKey "g") := VNumber 70000]>
                   (db orphanWorld)))
             70000) ∧
  disposeExpired demoConfig quiet 1 None orphanWorld
  = Ok (Some 70000)
       (mkWorld (<[last_gc := VNumber 70000]> (db orphanWorld)) 70000).
Proof. repeat split; vm_compute; reflexivity. Qed.

Lemma gc_keeps_ids_without_record_witness :
  let w1 := claim (getGroupIndexKey "g") orphanWorld in
  aquireGroupLock demoConfig quiet 1 "g" orphanWorld = Ok tt w1 ∧
  db w1 !! getGroupIndexKey "g" = Some (VList ["a"]) ∧
  (∀ x, x ∈ ["a"] → instance_or_none w1 (getInstanceKey "g" x)) ∧
  "a" ∈ ["a"] ∧
  db w1 !! getInstanceKey "g" "a" = None ∧
  ∃ ids w2,
    disposeExpired_group demoConfig quiet 1 70000 [] "g" orphanWorld
      = Ok [] w2 ∧
    db w2 !! getGroupIndexKey "g" = Some (VList ids) ∧
    "a" ∈ ids.
Proof.
  intros w1.
  assert (Hlock : aquireGroupLock demoConfig quiet 1 "g" orphanWorld = Ok tt w1)
    by reflexivity.
  assert (Hindex : db w1 !! getGroupIndexKey "g" = Some (VList ["a"]))
    by reflexivity.
  assert (Hshape : ∀ x, x ∈ ["a"] → instance_or_none w1 (getInstanceKey "g" x)).
  { intros x Hx. apply list_elem_of_singleton in Hx. subst x. exact I. }
  assert (Hin : "a" ∈ ["a"]) by (apply list_elem_of_singleton; reflexivity).
  assert (Hnone : db w1 !! getInstanceKey "g" "a" = None) by reflexivity.
  repeat (split; [assumption |]).
  exact (gc_keeps_ids_without_record demoConfig quiet 1 70000 [] "g" "a" ["a"]
           orphanWorld w1 Hlock Hindex Hshape Hin Hnone).
Defined.

Lemma heartbeat_touches_timestamps_only_witness :
  let w1 := claim (getGroupIndexKey "g") oneInstance in
  let instance := mkInstance "a" "g" 1000 1000 "{}" in
  let group := mkGroup "g" 1000 1000 in
  aquireGroupLock demoConfig quiet 1 "g" oneInstance = Ok tt w1 ∧
  db w1 !! getInstanceKey "g" "a" = Some (VInstance instance) ∧
  db w1 !! getGroupKey "g" = Some (VGroup group) ∧
  ∃ w2,
    post demoConfig quiet 1 "g" "a" "{x:1}" oneInstance = Ok "{x:1}" w2 ∧
    db w2 !! getInstanceKey "g" "a"
    = Some (VInstance (mkInstance "a" "g" 1000 61000 "{}")) ∧
    db w2 !! getGroupKey "g" = Some (VGroup (mkGroup "g" 1000 61000)) ∧
    db w2 = delete (mutexKey (getGroupIndexKey "g"))
              (<[getGroupKey "g" := VGroup (mkGroup "g" 1000 61000)]>
                 (<[getInstanceKey "g" "a" :=
                      VInstance (mkInstance "a" "g" 1000 61000 "{}")]> (db w1))) ∧
    clock w2 = clock w1.
Proof.
  intros w1 instance group.
  split; [reflexivity |]. split; [reflexivity |]. split; [reflexivity |].
  apply (heartbeat_touches_timestamps_only demoConfig quiet 1 "g" "a" "{x:1}"
           oneInstance w1 instance group); reflexivity.
Defined.

Lemma delete_not_found_iff_no_group_witness :
  delete_ demoConfig quiet 1 "h" "a" oneInstance = Ok NOT_FOUND oneInstance ∧
  (delete_ demoConfig quiet 1 "g" "a" twoInstances
   = Ok NO_CONTENT
       (mkWorld (delete (getInstanceKey "g" "a") (db twoInstances)) 1000) ∧
   db twoInstances !! getInstanceKey "g" "a"
   = Some (VInstance (mkInstance "a" "g" 1000 1000 "{}"))) ∧
  (db orphanWorld !! getInstanceKey "g" "a" = None ∧
   delete_ demoConfig quiet 1 "g" "a" orphanWorld
   = Ok NO_CONTENT (mkWorld {[listIndexKey := VList []]} 70000)).
Proof.
  split; [| split; split].
  - apply (proj1 (delete_not_found_iff_no_group demoConfig quiet 1 "h" "a"
                    oneInstance)).
    reflexivity.
  - apply (proj1 (proj2 (proj2
             (delete_not_found_iff_no_group demoConfig quiet 1 "g" "a"
                twoInstances)))).
    + exists (VGroup (mkGroup "g" 1000 1000)). reflexivity.
    + right. exists ["a"; "b"], "b". split; [reflexivity |].
      split; [| discriminate]. apply list_elem_of_further, list_elem_of_here.
  - reflexivity.
  - reflexivity.
  - refine (eq_trans
             (proj1 (proj2 (proj2 (proj2
                (delete_not_found_iff_no_group demoConfig quiet 0 "g" "a"
                   orphanWorld)))
                (ex_intro _ (VGroup (mkGroup "g" 1000 1000)) eq_refl)
                ["a"] ["g"] eq_refl _ eq_refl (or_intror eq_refl))) _).
    + intros x Hx. now apply list_elem_of_singleton in Hx.
    + vm_compute. reflexivity.
Defined.

Lemma quiet_is_quiet : quiet_store quiet.
Proof. intros ms w. reflexivity. Defined.


(** End to end: the only instance removed, the group is gone from the list
    and its fetch, sweeping first, answers not-found. *)
Example removing_last_instance_run :
  ∃ w', removeInstance demoConfig quiet 1 "g" "a" oneInstance = Ok tt w' ∧
        db w' = {[listIndexKey := VList []]} ∧
        ∃ w'', getGroup demoConfig quiet 1 None "g" w' = Ok (NOT_FOUND, []) w''.
Proof.
  eexists. split; [vm_compute; reflexivity |]. split; [reflexivity |].
  eexists. vm_compute. reflexivity.
Qed.

(** * Further properties of the mutex *)

Section MutexMore.

Variable config : TConfig.
Variable wake : Q → World → World.

(** The polls stop at the first world in which the lock shows free. *)
Lemma aquireLock_poll_first_open (n fuel : nat) (name : string) (w : World) :
  (n < fuel)%nat →
  lock_open config name (naps config wake n w) = true →
  ∃ m, (m ≤ n)%nat ∧
       aquireLock_poll config wake fuel name w = Ok tt (naps config wake m w).
Proof.
  revert fuel w. induction n as [|n IH]; intros fuel w Hfuel Hopen.
  - destruct fuel as [|fuel]; [lia |]. exists O. split; [lia |].
    rewrite aquireLock_poll_step. simpl in Hopen. now rewrite Hopen.
  - destruct fuel as [|fuel]; [lia |]. rewrite aquireLock_poll_step.
    destruct (lock_open config name w) eqn:Hnow.
    + exists O. split; [lia | reflexivity].
    + destruct (IH fuel (wake (Qmake (mutexTimeout config) 25) w))
        as (m & Hm & Hrun); [lia | exact Hopen |].
      exists (S m). split; [lia | exact Hrun].
Qed.

Lemma naps_clock (n : nat) (w : World) :
  sleeps_long_enough wake →
  25 * clock w + Z.of_nat n * mutexTimeout config
  ≤ 25 * clock (naps config wake n w).
Proof.
  intros Hlong. revert w. induction n as [|n IH]; intros w.
  - simpl. lia.
  - change (naps config wake (S n) w)
      with (naps config wake n (wake (Qmake (mutexTimeout config) 25) w)).
    specialize (IH (wake (Qmake (mutexTimeout config) 25) w)).
    specialize (Hlong (Qmake (mutexTimeout config) 25) w). simpl in Hlong.
    lia.
Qed.

(** X1 — a lock that its holder never releases is taken over: when the store
    is left alone, sleeps last as long as asked and [mutexTimeout] is
    positive, a caller that finds the mutex stamped no later than now claims
    it after at most 26 sleeps of [mutexTimeout / 25]. *)
Theorem aquireLock_takes_over_abandoned (fuel : nat) (name : string)
    (start : Z) (w : World) :
  quiet_store wake → sleeps_long_enough wake →
  0 < mutexTimeout config →
  (26 < fuel)%nat →
  db w !! mutexKey name = Some (VNumber start) →
  start ≤ clock w →
  ∃ n, (n ≤ 26)%nat ∧
       aquireLock config wake fuel name w
       = Ok tt (claim name (naps config wake n w)).
Proof.
  intros Hquiet Hlong Hpos Hfuel Hheld Hpast.
  assert (Hopen : lock_open config name (naps config wake 26 w) = true).
  { unfold lock_open. rewrite naps_quiet by exact Hquiet. rewrite Hheld.
    cbn [parseInt plus_lt]. apply Z.ltb_lt.
    pose proof (naps_clock 26 w Hlong) as Hclock. lia. }
  destruct (aquireLock_poll_first_open 26 fuel name w Hfuel Hopen)
    as (m & Hm & Hrun).
  exists m. split; [exact Hm |]. now rewrite aquireLock_run, Hrun.
Qed.

(** X2 — taking a lock and releasing it: when the lock shows free, the pair
    returns at the first poll with the mutex key gone and nothing else
    touched, so a store without the mutex is handed back as it was found and
    a stale mutex is cleared. *)
Theorem aquireLock_releaseLock_round_trip (fuel : nat) (name : string)
    (w : World) :
  lock_open config name w = true →
  (aquireLock config wake (S fuel) name;; releaseLock name) w
  = Ok tt (unlocked name w) ∧
  (db w !! mutexKey name = None → unlocked name w = w).
Proof.
  intros Hopen. split.
  - rewrite bind_run, (aquireLock_open config wake fuel name w Hopen).
    unfold releaseLock, del, claim, unlocked. simpl.
    now rewrite delete_insert_eq.
  - intros Hnone. unfold unlocked. destruct w as [m c]. simpl in *.
    f_equal. now apply delete_id.
Qed.

End MutexMore.

(** X3 — [aquireLock] gives up for every budget of polls exactly when no
    poll ever sees the lock free: there is no other way for it not to
    return, and no budget is too small once a poll within it sees the lock
    free. *)
Theorem aquireLock_starves_iff (config : TConfig) (wake : Q → World → World)
    (name : string) (w : World) :
  (∀ fuel, aquireLock config wake fuel name w = Stop OutOfFuel) ↔
  (∀ n, ¬ observed_free config name (naps config wake n w)).
Proof.
  split.
  - intros Hstop n Hfree. apply lock_open_spec in Hfree.
    destruct (aquireLock_poll_first_open config wake n (S n) name w)
      as (m & _ & Hrun); [lia | exact Hfree |].
    specialize (Hstop (S n)). rewrite aquireLock_run, Hrun in Hstop.
    discriminate.
  - apply aquireLock_starves.
Qed.

(** ** Upserts *)

Lemma getGroupKey_ne_index (g : string) : getGroupKey g ≠ getGroupIndexKey g.
Proof.
  unfold getGroupKey, getGroupIndexKey. intros H.
  apply (String.app_inj "group:") in H. revert H.
  apply string_app_neq_self. discriminate.
Qed.

Lemma getInstanceKey_ne (g x y : string) :
  x ≠ y → getInstanceKey g x ≠ getInstanceKey g y.
Proof. intros Hne H. apply Hne. now apply getInstanceKey_inj in H. Qed.

(** Lookups through the inserts and deletes of a run, for keys that the
    key families or the context tell apart. *)
Ltac key_ne :=
  first [ assumption
        | apply not_eq_sym; assumption
        | apply getGroupKey_ne_index
        | apply not_eq_sym, getGroupKey_ne_index
        | apply getInstanceKey_ne; first [assumption | now apply not_eq_sym]
        | keys_differ ].

Ltac lookups :=
  repeat first
    [ rewrite lookup_insert_eq
    | rewrite lookup_delete_eq
    | rewrite lookup_insert_ne by key_ne
    | rewrite lookup_delete_ne by key_ne ].

Section Upserts.

Variable config : TConfig.
Variable wake : Q → World → World.

(** [addInstance], by what the index key holds. *)
Lemma addInstance_run (gid id : string) (payload : Payload) (w : World) :
  addInstance gid id payload w =
  let stored ids :=
    Ok tt (mkWorld
             (<[getGroupIndexKey gid := VList ids]>
                (<[getInstanceKey gid id :=
                     VInstance (mkInstance id gid (clock w) (clock w) payload)]>
                   (db w)))
             (clock w)) in
  match db w !! getGroupIndexKey gid with
  | Some (VList ids) => stored (ids ++ [id])
  | None => stored [id]
  | Some _ => Stop (OffSchema (getGroupIndexKey gid))
  end.
Proof.
  unfold addInstance. rewrite bind_run. unfold now at 1.
  rewrite bind_run. unfold get at 1.
  destruct (db w !! getGroupIndexKey gid) as [[| | |]|]; reflexivity.
Qed.

(** [addGroup] when the list lock shows free, by what the list key holds. *)
Lemma addGroup_run (fuel : nat) (gid id : string) (w : World) :
  lock_open config listIndexKey w = true →
  addGroup config wake (S fuel) gid id w =
  let stored gids :=
    Ok tt (mkWorld
             (delete (mutexKey listIndexKey)
                (<[listIndexKey := VList (gids ++ [gid])]>
                   (<[getGroupIndexKey gid := VList [id]]>
                      (<[getGroupKey gid :=
                           VGroup (mkGroup gid (clock w) (clock w))]>
                         (<[mutexKey listIndexKey := VNumber (clock w)]>
                            (db w))))))
             (clock w)) in
  match db w !! listIndexKey with
  | Some (VList gids) => stored gids
  | None => stored []
  | Some _ => Stop (OffSchema listIndexKey)
  end.
Proof.
  intros Hopen. unfold addGroup, aquireListIndexLock.
  rewrite bind_run. unfold now at 1. rewrite bind_run. unfold now at 1.
  rewrite bind_run, (aquireLock_open config wake fuel _ w Hopen).
  rewrite bind_run. unfold set at 1. rewrite bind_run. unfold set at 1.
  unfold claim. cbn [db clock].
  set (w3 := mkWorld _ (clock w)).
  assert (Hl : db w3 !! listIndexKey = db w !! listIndexKey).
  { subst w3. cbn [db]. now lookups. }
  rewrite bind_run.
  destruct (db w !! listIndexKey) as [[| |gids|]|] eqn:E.
  1,2,4: unfold alterListIndex; now rewrite bind_run, getList_run, Hl.
  - rewrite (alterListIndex_run (Some [gid]) None gids w3)
      by now rewrite getList_run, Hl.
    destruct gids as [|x gids]; [reflexivity |].
    cbn [default]. now rewrite filter_not_in_nil.
  - rewrite (alterListIndex_run (Some [gid]) None [] w3)
      by now rewrite getList_run, Hl.
    reflexivity.
Qed.

(** The store a heartbeat leaves. *)
Lemma post_heartbeat_run (fuel : nat) (gid id : string) (payload : Payload)
    (w : World) (instance : TInstance) (group : TGroup) :
  lock_open config (getGroupIndexKey gid) w = true →
  db w !! getInstanceKey gid id = Some (VInstance instance) →
  db w !! getGroupKey gid = Some (VGroup group) →
  post config wake (S fuel) gid id payload w
  = Ok payload
      (mkWorld
         (delete (mutexKey (getGroupIndexKey gid))
            (<[getGroupKey gid := VGroup (set_lastUpdatedAt group (clock w))]>
               (<[getInstanceKey gid id :=
                    VInstance (set_updatedAt instance (clock w))]>
                  (<[mutexKey (getGroupIndexKey gid) := VNumber (clock w)]>
                     (db w)))))
         (clock w)).
Proof.
  intros Hopen Hinst Hgroup. unfold post, aquireGroupLock.
  rewrite bind_run, (aquireLock_open config wake fuel _ w Hopen).
  rewrite bind_run. unfold get at 1. unfold claim at 1. cbn [db].
  rewrite lookup_insert_ne by keys_differ. rewrite Hgroup.
  rewrite bind_run. unfold get at 1. unfold claim at 1. cbn [db].
  rewrite lookup_insert_ne by keys_differ. rewrite Hinst.
  reflexivity.
Qed.

(** The store the upsert of a new instance into an existing group leaves. *)
Lemma post_append_run (fuel : nat) (gid id : string) (payload : Payload)
    (w : World) (ids : list string) (group : TGroup) :
  lock_open config (getGroupIndexKey gid) w = true →
  db w !! getInstanceKey gid id = None →
  db w !! getGroupKey gid = Some (VGroup group) →
  db w !! getGroupIndexKey gid = Some (VList ids) →
  post config wake (S fuel) gid id payload w
  = Ok payload
      (mkWorld
         (delete (mutexKey (getGroupIndexKey gid))
            (<[getGroupKey gid := VGroup (set_lastUpdatedAt group (clock w))]>
               (<[getGroupIndexKey gid := VList (ids ++ [id])]>
                  (<[getInstanceKey gid id :=
                       VInstance (mkInstance id gid (clock w) (clock w) payload)]>
                     (<[mutexKey (getGroupIndexKey gid) := VNumber (clock w)]>
                        (db w))))))
         (clock w)).
Proof.
  intros Hopen Hinst Hgroup Hindex. unfold post, aquireGroupLock.
  rewrite bind_run, (aquireLock_open config wake fuel _ w Hopen).
  rewrite bind_run. unfold get at 1. unfold claim at 1. cbn [db].
  rewrite lookup_insert_ne by keys_differ. rewrite Hgroup.
  rewrite bind_run. unfold get at 1. unfold claim at 1. cbn [db].
  rewrite lookup_insert_ne by keys_differ. rewrite Hinst.
  rewrite bind_run, addInstance_run. unfold claim. cbn [db clock].
  rewrite lookup_insert_ne by keys_differ. rewrite Hindex.
  reflexivity.
Qed.

(** The store the first upsert into a group without a record leaves:
    whatever index the key held, the index is the new id alone. *)
Lemma post_create_run (fuel : nat) (gid id : string) (payload : Payload)
    (w : World) (gids : list string) :
  lock_open config (getGroupIndexKey gid) w = true →
  lock_open config listIndexKey w = true →
  db w !! getInstanceKey gid id = None →
  db w !! getGroupKey gid = None →
  (db w !! getGroupIndexKey gid = None ∨
   ∃ ids, db w !! getGroupIndexKey gid = Some (VList ids)) →
  (db w !! listIndexKey = None ∧ gids = [] ∨
   db w !! listIndexKey = Some (VList gids)) →
  post config wake (S fuel) gid id payload w
  = Ok payload
      (mkWorld
         (delete (mutexKey (getGroupIndexKey gid))
            (delete (mutexKey listIndexKey)
               (<[listIndexKey := VList (gids ++ [gid])]>
                  (<[getGroupIndexKey gid := VList [id]]>
                     (<[getGroupKey gid :=
                          VGroup (mkGroup gid (clock w) (clock w))]>
                        (<[getInstanceKey gid id :=
                             VInstance
                               (mkInstance id gid (clock w) (clock w) payload)]>
                           (db w)))))))
         (clock w)).
Proof.
  intros Hopen Hlist Hinst Hgroup Hindex Hgids. unfold post, aquireGroupLock.
  rewrite bind_run, (aquireLock_open config wake fuel _ w Hopen).
  rewrite bind_run. unfold get at 1. unfold claim at 1. cbn [db].
  rewrite lookup_insert_ne by keys_differ. rewrite Hgroup.
  rewrite bind_run. unfold get at 1. unfold claim at 1. cbn [db].
  rewrite lookup_insert_ne by keys_differ. rewrite Hinst.
  rewrite bind_run, addInstance_run. unfold claim. cbn [db clock].
  rewrite lookup_insert_ne by keys_differ.
  set (t := clock w).
  set (record := VInstance (mkInstance id gid t t payload)).
  assert (Hgo : ∀ ids',
    (addGroup config wake (S fuel) gid id ≫= λ _,
       releaseGroupLock gid ≫= λ _, mret payload)
      (mkWorld (<[getGroupIndexKey gid := VList ids']>
                  (<[getInstanceKey gid id := record]>
                     (<[mutexKey (getGroupIndexKey gid) := VNumber t]> (db w))))
               t)
    = Ok payload
        (mkWorld
           (delete (mutexKey (getGroupIndexKey gid))
              (delete (mutexKey listIndexKey)
                 (<[listIndexKey := VList (gids ++ [gid])]>
                    (<[getGroupIndexKey gid := VList [id]]>
                       (<[getGroupKey gid := VGroup (mkGroup gid t t)]>
                          (<[getInstanceKey gid id := record]> (db w)))))))
           t)).
  { intros ids'. rewrite bind_run, addGroup_run.
    2:{ unfold lock_open in *. cbn [db clock]. now lookups. }
    cbn [db clock]. lookups.
    assert (Hsame : ∀ l (m : gmap string Value),
      delete (mutexKey (getGroupIndexKey gid))
        (delete (mutexKey listIndexKey)
           (<[listIndexKey := VList l]>
              (<[getGroupIndexKey gid := VList [id]]>
                 (<[getGroupKey gid := VGroup (mkGroup gid t t)]>
                    (<[mutexKey listIndexKey := VNumber t]>
                       (<[getGroupIndexKey gid := VList ids']>
                          (<[getInstanceKey gid id := record]>
                             (<[mutexKey (getGroupIndexKey gid) := VNumber t]>
                                m))))))))
      = delete (mutexKey (getGroupIndexKey gid))
          (delete (mutexKey listIndexKey)
             (<[listIndexKey := VList l]>
                (<[getGroupIndexKey gid := VList [id]]>
                   (<[getGroupKey gid := VGroup (mkGroup gid t t)]>
                      (<[getInstanceKey gid id := record]> m)))))).
    { intros l m. apply map_eq. intros k.
      destruct (decide (k = mutexKey (getGroupIndexKey gid))) as [->|?];
        [now lookups |].
      destruct (decide (k = mutexKey listIndexKey)) as [->|?];
        [now lookups |].
      destruct (decide (k = listIndexKey)) as [->|?]; [now lookups |].
      destruct (decide (k = getGroupIndexKey gid)) as [->|?]; [now lookups |].
      destruct (decide (k = getGroupKey gid)) as [->|?]; [now lookups |].
      destruct (decide (k = getInstanceKey gid id)) as [->|?]; now lookups. }
    destruct Hgids as [[Hl ->] | Hl]; rewrite Hl; cbn zeta;
      rewrite bind_run;
      cbv beta iota delta [releaseGroupLock releaseLock del mret M_ret db clock];
      now rewrite Hsame. }
  destruct Hindex as [Hindex | (ids & Hindex)]; rewrite Hindex; cbn zeta;
    apply Hgo.
Qed.

End Upserts.

(** ** Sequences of upserts into one group *)

Lemma elem_of_addNew (ids : list string) (id x : string) :
  x ∈ addNew ids id ↔ x ∈ ids ∨ x = id.
Proof.
  unfold addNew. destruct (decide (id ∈ ids)) as [Hin|Hout].
  - split; [now left | intros [H | ->]; assumption].
  - rewrite elem_of_app, list_elem_of_singleton. reflexivity.
Qed.

Lemma NoDup_addNew (ids : list string) (id : string) :
  NoDup ids → NoDup (addNew ids id).
Proof.
  intros Hnd. unfold addNew. destruct (decide (id ∈ ids)) as [Hin|Hout];
    [exact Hnd |].
  apply NoDup_app. split; [exact Hnd |]. split; [| apply NoDup_singleton].
  intros x Hx Hx'. apply list_elem_of_singleton in Hx'. now subst x.
Qed.

Lemma elem_of_foldl_addNew (new ids : list string) (x : string) :
  x ∈ foldl addNew ids new ↔ x ∈ ids ∨ x ∈ new.
Proof.
  revert ids. induction new as [|id new IH]; intros ids; simpl.
  - rewrite elem_of_nil. tauto.
  - rewrite IH, elem_of_addNew, elem_of_cons. tauto.
Qed.

Lemma NoDup_foldl_addNew (new ids : list string) :
  NoDup ids → NoDup (foldl addNew ids new).
Proof.
  revert ids. induction new as [|id new IH]; intros ids Hnd; simpl;
    [exact Hnd |].
  apply IH. now apply NoDup_addNew.
Qed.

Lemma foldl_addNew_distinct (new ids : list string) :
  NoDup (ids ++ new) → foldl addNew ids new = ids ++ new.
Proof.
  revert ids. induction new as [|id new IH]; intros ids Hnd; simpl.
  - now rewrite app_nil_r.
  - assert (Hout : id ∉ ids).
    { apply NoDup_app in Hnd. destruct Hnd as (_ & Hdisj & _).
      intros Hin. apply (Hdisj id Hin). now left. }
    unfold addNew at 2. rewrite decide_False by exact Hout.
    rewrite IH; rewrite <- app_assoc; [reflexivity | exact Hnd].
Qed.

Section UpsertSequences.

Variable config : TConfig.
Variable wake : Q → World → World.

Lemma lock_open_absent (name : string) (w : World) :
  db w !! mutexKey name = None → lock_open config name w = true.
Proof. intros H. unfold lock_open. now rewrite H. Qed.

(** An upsert into a group at rest returns and leaves the group at rest,
    with the id listed once. *)
Lemma post_consistent (fuel : nat) (g id : string) (payload : Payload)
    (ids : list string) (w : World) :
  consistent g ids w →
  ∃ w', post config wake (S fuel) g id payload w = Ok payload w' ∧
        consistent g (addNew ids id) w'.
Proof.
  intros (Hmg & Hml & Hlist & Hnd & Hrec & Hgrp).
  pose proof (lock_open_absent _ _ Hmg) as Hopen.
  pose proof (lock_open_absent _ _ Hml) as Hopenl.
  pose proof (Hrec id) as Hid.
  unfold addNew. destruct (decide (id ∈ ids)) as [Hin|Hout].
  - (* heartbeat *)
    destruct (db w !! getInstanceKey g id) as [[r| | |]|] eqn:Hinst;
      try contradiction.
    destruct ids as [|y l]; [now apply elem_of_nil in Hin |].
    destruct Hgrp as ((group & Hgroup) & Hindex).
    eexists. split; [apply (post_heartbeat_run config wake fuel g id payload
                              w r group Hopen Hinst Hgroup) |].
    unfold consistent, list_or_none. cbn [db].
    repeat split; try (now lookups); try exact Hnd.
    + intros x. destruct (decide (x = id)) as [->|Hne];
        [now lookups | lookups; apply Hrec].
    + eexists. now lookups.
  - destruct (db w !! getInstanceKey g id) as [[r| | |]|] eqn:Hinst;
      try contradiction.
    destruct ids as [|y l].
    + (* the group is created *)
      destruct Hgrp as (Hgroup & Hindex).
      assert (Hgids : ∃ gids, db w !! listIndexKey = None ∧ gids = [] ∨
                              db w !! listIndexKey = Some (VList gids)).
      { unfold list_or_none in Hlist.
        destruct (db w !! listIndexKey) as [[| |gids|]|]; try contradiction;
          [exists gids; now right | exists []; now left]. }
      destruct Hgids as (gids & Hgids).
      eexists. split; [apply (post_create_run config wake fuel g id payload
                                w gids Hopen Hopenl Hinst Hgroup
                                (or_introl Hindex) Hgids) |].
      unfold consistent, list_or_none. cbn [db app].
      repeat split; try (now lookups).
      * apply NoDup_singleton.
      * intros x. destruct (decide (x = id)) as [->|Hne].
        { lookups. apply list_elem_of_singleton. reflexivity. }
        lookups. specialize (Hrec x).
        destruct (db w !! getInstanceKey g x) as [[| | |]|]; try contradiction.
        -- now apply elem_of_nil in Hrec.
        -- intros Hx. apply list_elem_of_singleton in Hx. contradiction.
      * eexists. now lookups.
    + (* the id is appended *)
      destruct Hgrp as ((group & Hgroup) & Hindex).
      eexists. split; [apply (post_append_run config wake fuel g id payload
                                w (y :: l) group Hopen Hinst Hgroup Hindex) |].
      unfold consistent, list_or_none. cbn [db].
      assert (Hnd' : NoDup ((y :: l) ++ [id])).
      { apply NoDup_app. split; [exact Hnd |].
        split; [| apply NoDup_singleton].
        intros x Hx Hx'. apply list_elem_of_singleton in Hx'. now subst x. }
      repeat split; try (now lookups); try exact Hnd'.
      * intros x. destruct (decide (x = id)) as [->|Hne].
        { lookups. apply elem_of_app. right.
          apply list_elem_of_singleton. reflexivity. }
        lookups. specialize (Hrec x).
        destruct (db w !! getInstanceKey g x) as [[| | |]|]; try contradiction.
        -- apply elem_of_app. now left.
        -- intros Hx. apply elem_of_app in Hx. destruct Hx as [Hx|Hx];
             [contradiction | apply list_elem_of_singleton in Hx; contradiction].
      * eexists. now lookups.
Qed.

Lemma upserts_consistent (fuel : nat) (g : string)
    (payloadOf : string → Payload) (new ids : list string) (w : World) :
  consistent g ids w →
  ∃ w', serveAll config wake (S fuel) (upserts g payloadOf new) w = Ok tt w' ∧
        consistent g (foldl addNew ids new) w'.
Proof.
  revert ids w. induction new as [|id new IH]; intros ids w Hc.
  - exists w. split; [reflexivity | exact Hc].
  - destruct (post_consistent fuel g id (payloadOf id) ids w Hc)
      as (w1 & Hrun & Hc1).
    destruct (IH _ _ Hc1) as (w' & Hrun' & Hc').
    exists w'. split; [| exact Hc'].
    unfold serveAll, upserts in *. cbn [map forM serve].
    rewrite bind_run, bind_run, Hrun. exact Hrun'.
Qed.

End UpsertSequences.

Lemma filter_agree {A} (P Q : A → Prop) `{!∀ x, Decision (P x)}
    `{!∀ x, Decision (Q x)} (l : list A) :
  (∀ x, x ∈ l → (P x ↔ Q x)) → filter P l = filter Q l.
Proof.
  induction l as [|y l IH]; intros Hext; [reflexivity |].
  assert (Hl : filter P l = filter Q l).
  { apply IH. intros x Hx. apply Hext. now right. }
  destruct (decide (P y)) as [Hy|Hy].
  - rewrite !filter_cons_True; [now rewrite Hl | | exact Hy].
    apply Hext; [now left | exact Hy].
  - rewrite !filter_cons_False; [exact Hl | | exact Hy].
    intros HQ. apply Hy. apply Hext; [now left | exact HQ].
Qed.

Lemma filter_all {A} (P : A → Prop) `{!∀ x, Decision (P x)} (l : list A) :
  (∀ x, x ∈ l → P x) → filter P l = l.
Proof.
  induction l as [|y l IH]; intros Hall; [reflexivity |].
  rewrite filter_cons_True by (apply Hall; now left).
  f_equal. apply IH. intros x Hx. apply Hall. now right.
Qed.

Section UpsertTheorems.

Variable config : TConfig.
Variable wake : Q → World → World.

(** X4 — the first upsert into a group that has no record, with both locks
    free: the request returns the payload it was sent, stores the instance
    with [createdAt = updatedAt = now] and that payload, creates the group
    record with [createdAt = lastUpdatedAt = now], sets the group's index to
    the new id alone (an index found under the key is overwritten), appends
    the group id to the global list, and leaves both locks released. *)
Theorem first_upsert_creates_group (fuel : nat) (gid id : string)
    (payload : Payload) (w : World) (gids : list string) :
  lock_open config (getGroupIndexKey gid) w = true →
  lock_open config listIndexKey w = true →
  db w !! getInstanceKey gid id = None →
  db w !! getGroupKey gid = None →
  (db w !! getGroupIndexKey gid = None ∨
   ∃ ids, db w !! getGroupIndexKey gid = Some (VList ids)) →
  (db w !! listIndexKey = None ∧ gids = [] ∨
   db w !! listIndexKey = Some (VList gids)) →
  ∃ w',
    post config wake (S fuel) gid id payload w = Ok payload w' ∧
    db w' !! getInstanceKey gid id
    = Some (VInstance (mkInstance id gid (clock w) (clock w) payload)) ∧
    db w' !! getGroupKey gid
    = Some (VGroup (mkGroup gid (clock w) (clock w))) ∧
    db w' !! getGroupIndexKey gid = Some (VList [id]) ∧
    db w' !! listIndexKey = Some (VList (gids ++ [gid])) ∧
    db w' !! mutexKey (getGroupIndexKey gid) = None ∧
    db w' !! mutexKey listIndexKey = None.
Proof.
  intros Hopen Hlist Hinst Hgroup Hindex Hgids.
  eexists. split;
    [exact (post_create_run config wake fuel gid id payload w gids
              Hopen Hlist Hinst Hgroup Hindex Hgids) |].
  cbn [db]. repeat split; now lookups.
Qed.

(** X5 — the upsert of a new instance into a group that has its record and
    index, with the group lock free: the id is appended at the end of the
    index, the instance is stored with [createdAt = updatedAt = now] and the
    payload sent, the group record keeps its fields but for
    [lastUpdatedAt = now], the lock is released, and every other key, the
    global list among them, is left as it was. *)
Theorem upsert_appends_new_instance (fuel : nat) (gid id : string)
    (payload : Payload) (w : World) (ids : list string) (group : TGroup) :
  lock_open config (getGroupIndexKey gid) w = true →
  db w !! getInstanceKey gid id = None →
  db w !! getGroupKey gid = Some (VGroup group) →
  db w !! getGroupIndexKey gid = Some (VList ids) →
  ∃ w',
    post config wake (S fuel) gid id payload w = Ok payload w' ∧
    db w' !! getGroupIndexKey gid = Some (VList (ids ++ [id])) ∧
    db w' !! getInstanceKey gid id
    = Some (VInstance (mkInstance id gid (clock w) (clock w) payload)) ∧
    db w' !! getGroupKey gid
    = Some (VGroup (mkGroup (g_group group) (g_createdAt group) (clock w))) ∧
    db w' !! mutexKey (getGroupIndexKey gid) = None ∧
    (∀ k, k ≠ getGroupIndexKey gid → k ≠ getInstanceKey gid id →
          k ≠ getGroupKey gid → k ≠ mutexKey (getGroupIndexKey gid) →
          db w' !! k = db w !! k).
Proof.
  intros Hopen Hinst Hgroup Hindex.
  eexists. split; [now apply (post_append_run config wake fuel gid id payload
                                w ids group) |].
  cbn [db]. repeat split; try (now lookups).
  intros k H1 H2 H3 H4. now lookups.
Qed.

(** X6 — from the empty store, any sequence of upserts into one group is
    served to the end, whatever the environment: the group's index then
    lists every upserted id once, in the order of first appearance (the
    sequence itself when its ids are distinct), every upserted id has an
    instance record, and no lock is left. *)
Theorem upserts_from_empty_store (fuel : nat) (g : string)
    (payloadOf : string → Payload) (new : list string) (t0 : Z) :
  ∃ w' ids,
    serveAll config wake (S fuel) (upserts g payloadOf new) (emptyWorld t0)
    = Ok tt w' ∧
    ids = foldl addNew [] new ∧
    NoDup ids ∧
    (∀ x, x ∈ ids ↔ x ∈ new) ∧
    (NoDup new → ids = new) ∧
    (new ≠ [] → indexOf w' g = Some ids) ∧
    (∀ x, x ∈ new → ∃ r, db w' !! getInstanceKey g x = Some (VInstance r)) ∧
    db w' !! mutexKey (getGroupIndexKey g) = None ∧
    db w' !! mutexKey listIndexKey = None.
Proof.
  assert (Hempty : consistent g [] (emptyWorld t0)).
  { unfold consistent, list_or_none, emptyWorld. cbn [db].
    repeat split; try apply lookup_empty; try apply NoDup_nil_2.
    intros x. rewrite lookup_empty. apply not_elem_of_nil. }
  destruct (upserts_consistent config wake fuel g payloadOf new [] _ Hempty)
    as (w' & Hrun & (Hmg & Hml & _ & Hnd & Hrec & Hgrp)).
  exists w', (foldl addNew [] new).
  assert (Hmem : ∀ x, x ∈ foldl addNew [] new ↔ x ∈ new).
  { intros x. rewrite elem_of_foldl_addNew, elem_of_nil. tauto. }
  repeat split; try assumption; try apply Hmem.
  - intros Hdistinct. now apply (foldl_addNew_distinct new []).
  - intros Hne. unfold indexOf.
    destruct (foldl addNew [] new) as [|y l] eqn:Hids.
    + destruct new as [|x new']; [contradiction |].
      exfalso. apply (not_elem_of_nil x). apply Hmem. now left.
    + destruct Hgrp as (_ & Hindex). now rewrite Hindex.
  - intros x Hx. apply Hmem in Hx. specialize (Hrec x).
    destruct (db w' !! getInstanceKey g x) as [[r| | |]|];
      try contradiction; eauto.
Qed.

(** X7 — creating a group and removing its only instance again undoes the
    creation: on a store at rest that holds nothing of group [gid] and whose
    global list does not name it, an upsert followed by the removal of the
    same instance answers no-content and hands the store back as it was. *)
Theorem upsert_then_remove_restores (fuel : nat) (gid id : string)
    (payload : Payload) (w : World) (gids : list string) :
  consistent gid [] w →
  db w !! listIndexKey = Some (VList gids) →
  gid ∉ gids →
  (post config wake (S fuel) gid id payload;;
   delete_ config wake (S fuel) gid id) w
  = Ok NO_CONTENT w.
Proof.
  intros (Hmg & Hml & _ & _ & Hrec & Hgroup & Hindex) Hlist Hfresh.
  assert (Hinst : db w !! getInstanceKey gid id = None).
  { specialize (Hrec id).
    destruct (db w !! getInstanceKey gid id) as [[| | |]|];
      try contradiction; [now apply elem_of_nil in Hrec | reflexivity]. }
  rewrite bind_run.
  rewrite (post_create_run config wake fuel gid id payload w gids
             (lock_open_absent config _ _ Hmg) (lock_open_absent config _ _ Hml)
             Hinst Hgroup (or_introl Hindex) (or_intror Hlist)).
  set (w1 := mkWorld _ (clock w)).
  unfold delete_. rewrite bind_run. unfold exists_.
  rewrite bool_decide_eq_true_2.
  2:{ subst w1. cbn [db]. lookups. eauto. }
  rewrite bind_run.
  rewrite (removeInstance_last config wake (S fuel) gid id [id] w1).
  2:{ subst w1. cbn [db]. now lookups. }
  2:{ intros x Hx. now apply list_elem_of_singleton in Hx. }
  set (w2 := mkWorld (delete (getInstanceKey gid id) (db w1)) (clock w1)).
  assert (Hopen : lock_open config listIndexKey w2 = true).
  { apply lock_open_absent. subst w2 w1. cbn [db]. now lookups. }
  rewrite (removeGroup_run config wake (S fuel) gid w2 _
             (aquireLock_open config wake fuel _ w2 Hopen)).
  assert (Hl : db (claim listIndexKey w2) !! listIndexKey
               = Some (VList (gids ++ [gid]))).
  { unfold claim. subst w2 w1. cbn [db]. now lookups. }
  rewrite Hl. unfold mret, M_ret. f_equal.
  assert (Hfilter : filter (λ x, x ∉ [gid]) (gids ++ [gid]) = gids).
  { rewrite filter_app, filter_cons_False, filter_nil, app_nil_r.
    - apply filter_all. intros x Hx Hx'.
      apply list_elem_of_singleton in Hx'. now subst x.
    - intros H. apply H. now left. }
  rewrite Hfilter. unfold groupRemoved, claim. subst w2 w1. cbn [db clock].
  destruct w as [m c]. cbn [db clock] in *. f_equal.
  apply map_eq. intros k.
  destruct (decide (k = mutexKey (getGroupIndexKey gid))) as [->|?];
    [now lookups |].
  destruct (decide (k = mutexKey listIndexKey)) as [->|?]; [now lookups |].
  destruct (decide (k = listIndexKey)) as [->|?]; [now lookups |].
  destruct (decide (k = getGroupIndexKey gid)) as [->|?]; [now lookups |].
  destruct (decide (k = getGroupKey gid)) as [->|?]; [now lookups |].
  destruct (decide (k = getInstanceKey gid id)) as [->|?]; now lookups.
Qed.

End UpsertTheorems.

(** ** The list of groups, again *)

(** X8 — whenever no added id is among the removed ones, [alterListIndex]
    writes the list it read (an absent key reads as the empty list) with the
    additions appended and the removals then filtered out, and touches no
    other key; this covers every call with additions only or removals only. *)
Theorem alterListIndex_adds_then_removes (add remove : option (list string))
    (gids : list string) (w : World) :
  (db w !! listIndexKey = None ∧ gids = [] ∨
   db w !! listIndexKey = Some (VList gids)) →
  (∀ gid, gid ∈ default [] add → gid ∉ default [] remove) →
  alterListIndex add remove w
  = Ok tt (mkWorld
             (<[listIndexKey :=
                  VList (filter (λ gid, gid ∉ default [] remove)
                           (gids ++ default [] add))]> (db w))
             (clock w)).
Proof.
  intros Hlist Hdisjoint.
  assert (Hget : getList w = Ok gids w).
  { rewrite getList_run. now destruct Hlist as [[-> ->] | ->]. }
  rewrite (alterListIndex_run add remove gids w Hget).
  destruct gids as [|x gids]; [| reflexivity].
  cbn [app]. now rewrite filter_all.
Qed.

(** ** The sweep of one group *)

Section SweepMore.

Variable config : TConfig.
Variable wake : Q → World → World.

Lemma disposeExpired_instance_expired (t : Z) (gid : string)
    (ids : list string) (id : string) (w : World) :
  instance_or_none w (getInstanceKey gid id) →
  disposeExpired_instance config t gid ids id w =
  if expired_at config t gid w id then swept gid ids id w else Ok ids w.
Proof.
  intros Hshape. rewrite disposeExpired_instance_run.
  unfold expired_at, instance_or_none in *.
  destruct (db w !! getInstanceKey gid id) as [[r| | |]|];
    try contradiction; [| reflexivity].
  now destruct (t <? i_updatedAt r + instanceTimeout config).
Qed.

(** The callbacks of one group, run over [rest] with the in-memory index at
    [cur]: the index loses the expired ids of [rest], the store their
    records, and nothing else changes. *)
Lemma sweep_instances_exact (t : Z) (gid : string) (rest cur : list string)
    (w : World) :
  (∀ x, x ∈ rest → instance_or_none w (getInstanceKey gid x)) →
  ∃ w',
    foldM (disposeExpired_instance config t gid) cur rest w
    = Ok (filter (λ y, ¬ (y ∈ rest ∧ expired_at config t gid w y = true)) cur)
         w' ∧
    clock w' = clock w ∧
    (∀ x, x ∈ rest → expired_at config t gid w x = true →
          db w' !! getInstanceKey gid x = None) ∧
    (∀ k, (∀ x, x ∈ rest → expired_at config t gid w x = true →
                k ≠ getInstanceKey gid x) →
          db w' !! k = db w !! k).
Proof.
  revert cur w. induction rest as [|x rest IH]; intros cur w Hshape.
  - exists w. cbn [foldM]. repeat split.
    + unfold mret, M_ret. f_equal. symmetry. apply filter_all.
      intros y _ [Hy _]. now apply elem_of_nil in Hy.
    + intros y Hy. now apply elem_of_nil in Hy.
  - cbn [foldM]. rewrite bind_run.
    rewrite disposeExpired_instance_expired by (apply Hshape; now left).
    assert (Hrest : ∀ y, y ∈ rest → instance_or_none w (getInstanceKey gid y)).
    { intros y Hy. apply Hshape. now right. }
    destruct (expired_at config t gid w x) eqn:Hx.
    + unfold swept.
      set (w1 := mkWorld (delete (getInstanceKey gid x) (db w)) (clock w)).
      assert (Hexp1 : ∀ y, expired_at config t gid w1 y
                           = if decide (y = x) then false
                             else expired_at config t gid w y).
      { intros y. unfold expired_at. subst w1. cbn [db].
        destruct (decide (y = x)) as [->|Hne]; [now lookups | now lookups]. }
      destruct (IH (filter (λ item, item ≠ x) cur) w1)
        as (w' & Hrun & Hclock & Hgone & Hframe).
      { intros y Hy. unfold instance_or_none. subst w1. cbn [db].
        destruct (decide (y = x)) as [->|Hne]; [now lookups |].
        lookups. now apply Hrest. }
      exists w'. split; [| split; [exact Hclock | split]].
      * rewrite Hrun. f_equal. rewrite list_filter_filter.
        apply filter_agree. intros y _. rewrite Hexp1, elem_of_cons.
        destruct (decide (y = x)) as [->|Hne]; split.
        -- intros [_ Hxx]. now contradiction Hxx.
        -- intros Hnot. exfalso. apply Hnot. split; [now left | exact Hx].
        -- intros [Hnot _] [[Heq | Hin] Hy]; [contradiction |].
           apply Hnot. now split.
        -- intros Hnot. split; [| exact Hne]. intros [Hin Hy]. apply Hnot.
           split; [now right | exact Hy].
      * intros y Hy Hyexp. destruct (decide (y = x)) as [->|Hne].
        -- rewrite Hframe; [subst w1; cbn [db]; now lookups |].
           intros z Hz Hzexp. rewrite Hexp1 in Hzexp.
           destruct (decide (z = x)) as [->|Hzx]; [discriminate |].
           now apply getInstanceKey_ne, not_eq_sym.
        -- apply elem_of_cons in Hy. destruct Hy as [-> | Hy]; [contradiction |].
           apply Hgone; [exact Hy |]. rewrite Hexp1.
           now rewrite decide_False by exact Hne.
      * intros k Hk. rewrite Hframe.
        -- subst w1. cbn [db]. apply lookup_delete_ne, not_eq_sym.
           apply Hk; [now left | exact Hx].
        -- intros z Hz Hzexp. rewrite Hexp1 in Hzexp.
           destruct (decide (z = x)) as [->|Hzx]; [discriminate |].
           apply Hk; [now right | exact Hzexp].
    + destruct (IH cur w Hrest) as (w' & Hrun & Hclock & Hgone & Hframe).
      exists w'. split; [| split; [exact Hclock | split]].
      * rewrite Hrun. f_equal. apply filter_agree. intros y _.
        rewrite elem_of_cons. split.
        -- intros Hnot [[-> | Hin] Hy]; [congruence |]. apply Hnot. now split.
        -- intros Hnot [Hin Hy]. apply Hnot. split; [now right | exact Hy].
      * intros y Hy Hyexp. apply elem_of_cons in Hy.
        destruct Hy as [-> | Hy]; [congruence |]. now apply Hgone.
      * intros k Hk. apply Hframe. intros z Hz Hzexp.
        apply Hk; [now right | exact Hzexp].
Qed.

(** The sweep of one group, in full. *)
Lemma disposeExpired_group_exact (fuel : nat) (t : Z)
    (gidsToRemove : list string) (gid : string) (ids0 : list string)
    (w w1 : World) :
  aquireGroupLock config wake fuel gid w = Ok tt w1 →
  (db w1 !! getGroupIndexKey gid = None ∧ ids0 = [] ∨
   db w1 !! getGroupIndexKey gid = Some (VList ids0)) →
  (∀ x, x ∈ ids0 → instance_or_none w1 (getInstanceKey gid x)) →
  let kept := filter (λ x, expired_at config t gid w1 x = false) ids0 in
  ∃ w2,
    disposeExpired_group config wake fuel t gidsToRemove gid w
    = Ok (match kept with
          | [] => gidsToRemove ++ [gid]
          | _ :: _ => gidsToRemove
          end) w2 ∧
    db w2 !! getGroupIndexKey gid
    = match kept with
      | [] => db w1 !! getGroupIndexKey gid
      | _ :: _ => Some (VList kept)
      end ∧
    (∀ x, x ∈ ids0 →
          db w2 !! getInstanceKey gid x
          = if expired_at config t gid w1 x then None
            else db w1 !! getInstanceKey gid x) ∧
    (∀ k, k ≠ getGroupIndexKey gid → (∀ x, k ≠ getInstanceKey gid x) →
          db w2 !! k = db w1 !! k) ∧
    clock w2 = clock w1.
Proof.
  intros Hlock Hindex Hshape kept.
  destruct (sweep_instances_exact t gid ids0 ids0 w1 Hshape)
    as (w' & Hrun & Hclock & Hgone & Hframe).
  assert (Hkept : filter (λ y, ¬ (y ∈ ids0 ∧ expired_at config t gid w1 y = true))
                    ids0 = kept).
  { subst kept. apply filter_agree. intros y Hy. split.
    - intros Hnot. destruct (expired_at config t gid w1 y); [| reflexivity].
      exfalso. apply Hnot. now split.
    - intros Hfalse [_ Htrue]. congruence. }
  rewrite Hkept in Hrun.
  assert (Hidx' : db w' !! getGroupIndexKey gid = db w1 !! getGroupIndexKey gid).
  { apply Hframe. intros x _ _. keys_differ. }
  assert (Hinst' : ∀ x, x ∈ ids0 →
            db w' !! getInstanceKey gid x
            = if expired_at config t gid w1 x then None
              else db w1 !! getInstanceKey gid x).
  { intros x Hx. destruct (expired_at config t gid w1 x) eqn:Hexp.
    - now apply Hgone.
    - apply Hframe. intros z _ Hz Heq. apply getInstanceKey_inj in Heq.
      subst z. congruence. }
  assert (Hstart :
    disposeExpired_group config wake fuel t gidsToRemove gid w =
    match kept with
    | [] => Ok (gidsToRemove ++ [gid]) w'
    | _ :: _ =>
        Ok gidsToRemove
           (mkWorld (<[getGroupIndexKey gid := VList kept]> (db w')) (clock w'))
    end).
  { unfold disposeExpired_group. rewrite (bind_Ok _ _ _ _ _ Hlock).
    rewrite bind_run. unfold get at 1.
    destruct Hindex as [[Hnone ->] | Hsome].
    - rewrite Hnone, bind_run. unfold mret at 1, M_ret at 1.
      rewrite (bind_Ok _ _ _ _ _ Hrun). now destruct kept.
    - rewrite Hsome, bind_run. unfold mret at 1, M_ret at 1.
      rewrite (bind_Ok _ _ _ _ _ Hrun). now destruct kept. }
  rewrite Hstart. destruct kept as [|y kept'].
  - exists w'. repeat split; try assumption.
    intros k Hk Hki. apply Hframe. intros x _ _. apply Hki.
  - eexists. split; [reflexivity |]. cbn [db clock].
    repeat split; [| | | exact Hclock].
    + now lookups.
    + intros x Hx. rewrite lookup_insert_ne by keys_differ. now apply Hinst'.
    + intros k Hk Hki. rewrite lookup_insert_ne by now apply not_eq_sym.
      apply Hframe. intros x _ _. apply Hki.
Qed.

(** X9 — the sweep of one group, once its lock is taken (world [w1]): the
    records of the listed ids that are expired are deleted and the others
    left alone; the ids that stay are those without a record or not yet
    expired, in index order; when some stay the index is written back with
    exactly them and the group is not marked, when none stays (an absent
    index included) the group is marked for removal and its index key is
    left as it was.  No other key changes, nor does the clock. *)
Theorem sweep_group_prunes_expired (fuel : nat) (t : Z)
    (gidsToRemove : list string) (gid : string) (ids0 : list string)
    (w w1 : World) :
  aquireGroupLock config wake fuel gid w = Ok tt w1 →
  (db w1 !! getGroupIndexKey gid = None ∧ ids0 = [] ∨
   db w1 !! getGroupIndexKey gid = Some (VList ids0)) →
  (∀ x, x ∈ ids0 → instance_or_none w1 (getInstanceKey gid x)) →
  let kept := filter (λ x, expired_at config t gid w1 x = false) ids0 in
  ∃ w2,
    disposeExpired_group config wake fuel t gidsToRemove gid w
    = Ok (match kept with
          | [] => gidsToRemove ++ [gid]
          | _ :: _ => gidsToRemove
          end) w2 ∧
    db w2 !! getGroupIndexKey gid
    = match kept with
      | [] => db w1 !! getGroupIndexKey gid
      | _ :: _ => Some (VList kept)
      end ∧
    (∀ x, x ∈ ids0 →
          db w2 !! getInstanceKey gid x
          = if expired_at config t gid w1 x then None
            else db w1 !! getInstanceKey gid x) ∧
    (∀ k, k ≠ getGroupIndexKey gid → (∀ x, k ≠ getInstanceKey gid x) →
          db w2 !! k = db w1 !! k) ∧
    clock w2 = clock w1.
Proof.
  exact (disposeExpired_group_exact fuel t gidsToRemove gid ids0 w w1).
Qed.

End SweepMore.

(** ** The whole sweep *)

Section GC.

Variable config : TConfig.
Variable wake : Q → World → World.

Lemma shouldGC_run (lastInstancesDispose : option Z) (w : World) :
  shouldGC config lastInstancesDispose w =
  Ok (if plus_gt lastInstancesDispose (gcInterval config) (clock w)
      then (false, lastInstancesDispose)
      else if plus_gt (lastGC w) (gcInterval config) (clock w)
           then (false, lastGC w)
           else (true, lastGC w)) w.
Proof.
  unfold shouldGC, lastGC. rewrite bind_run. unfold now at 1.
  destruct (plus_gt lastInstancesDispose (gcInterval config) (clock w));
    [reflexivity |].
  rewrite bind_run. unfold get.
  match goal with
  | |- (if ?c then _ else _) _ = _ => destruct c
  end; reflexivity.
Qed.

Lemma mapM_get_run (gid : string) (ids : list string) (w : World) :
  mapM (λ id, get (getInstanceKey gid id)) ids w
  = Ok (map (λ id, db w !! getInstanceKey gid id) ids) w.
Proof.
  induction ids as [|x ids IH]; [reflexivity |].
  cbn [mapM map]. rewrite bind_run. unfold get at 1.
  rewrite bind_run, IH. reflexivity.
Qed.

(** The sweep does not run while the shared stamp is fresh. *)
Lemma disposeExpired_gated (fuel : nat) (lastInstancesDispose : option Z)
    (w : World) :
  plus_gt (lastGC w) (gcInterval config) (clock w) = true →
  ∃ l, disposeExpired config wake fuel lastInstancesDispose w = Ok l w.
Proof.
  intros Hfresh. unfold disposeExpired. rewrite bind_run, shouldGC_run, Hfresh.
  destruct (plus_gt lastInstancesDispose (gcInterval config) (clock w));
    eexists; reflexivity.
Qed.

(** A gated fetch, up to the array it awaits. *)
Lemma getGroup_gated (fuel : nat) (lastInstancesDispose : option Z)
    (gid : string) (w : World) :
  plus_gt (lastGC w) (gcInterval config) (clock w) = true →
  getGroup config wake fuel lastInstancesDispose gid w =
  match db w !! getGroupIndexKey gid with
  | None => Ok (NOT_FOUND, []) w
  | Some (VList ids) =>
      Ok (OK, map (λ id, db w !! getInstanceKey gid id) ids) w
  | Some _ => Stop (OffSchema (getGroupIndexKey gid))
  end.
Proof.
  intros Hfresh.
  destruct (disposeExpired_gated fuel lastInstancesDispose w Hfresh)
    as (l & Hgc).
  unfold getGroup. rewrite (bind_Ok _ _ _ _ _ Hgc), bind_run. unfold get at 1.
  destruct (db w !! getGroupIndexKey gid) as [[| |ids|]|]; try reflexivity.
  now rewrite bind_run, mapM_get_run.
Qed.

(** X10 — while the shared [last_gc] stamp (an absent key counts as 0) plus
    [gcInterval] is after now, a fetch of a group runs no sweep, whatever the
    request's own stamp and even with no poll allowed, and changes nothing in
    the store.  It answers not-found, with no body, when the group has no
    index; otherwise it answers OK with the stored texts of the listed ids
    in index order, joined by commas between brackets, where an id without
    a record gives the empty text: an index whose only id has no record is
    answered ["[]"], like an empty index. *)
Theorem gated_fetch_reads_only (text : Value → string) (fuel : nat)
    (lastInstancesDispose : option Z) (gid : string) (w : World) :
  plus_gt (lastGC w) (gcInterval config) (clock w) = true →
  (db w !! getGroupIndexKey gid = None →
   getGroupAnswer text config wake fuel lastInstancesDispose gid w
   = Ok (NOT_FOUND, None) w) ∧
  (∀ ids, db w !! getGroupIndexKey gid = Some (VList ids) →
   getGroupAnswer text config wake fuel lastInstancesDispose gid w
   = Ok (OK, Some ("[" +:+ String.concat ","
                             (map (λ id, match db w !! getInstanceKey gid id with
                                         | Some v => text v
                                         | None => ""
                                         end) ids)
                       +:+ "]")) w) ∧
  (∀ id, db w !! getGroupIndexKey gid = Some (VList [id]) →
         db w !! getInstanceKey gid id = None →
   getGroupAnswer text config wake fuel lastInstancesDispose gid w
   = Ok (OK, Some "[]") w) ∧
  (db w !! getGroupIndexKey gid = Some (VList []) →
   getGroupAnswer text config wake fuel lastInstancesDispose gid w
   = Ok (OK, Some "[]") w).
Proof.
  intros Hfresh.
  assert (Hids : ∀ ids, db w !! getGroupIndexKey gid = Some (VList ids) →
    getGroupAnswer text config wake fuel lastInstancesDispose gid w
    = Ok (OK, Some ("[" +:+ String.concat ","
                              (map (λ id, match db w !! getInstanceKey gid id with
                                          | Some v => text v
                                          | None => ""
                                          end) ids)
                        +:+ "]")) w).
  { intros ids Hindex. unfold getGroupAnswer.
    rewrite bind_run, (getGroup_gated _ _ _ _ Hfresh), Hindex.
    cbn [fst snd]. unfold mret, M_ret, joinBody. rewrite map_map.
    assert (Hm : map (λ id, from_option text "" (db w !! getInstanceKey gid id))
                     ids
                 = map (λ id, match db w !! getInstanceKey gid id with
                              | Some v => text v
                              | None => ""
                              end) ids).
    { apply map_ext. intros id. now destruct (db w !! getInstanceKey gid id). }
    now rewrite Hm. }
  split; [| split; [exact Hids | split]].
  - intros Hnone. unfold getGroupAnswer.
    now rewrite bind_run, (getGroup_gated _ _ _ _ Hfresh), Hnone.
  - intros id Hindex Hnone. rewrite (Hids [id] Hindex). cbn [map].
    now rewrite Hnone.
  - intros Hindex. now rewrite (Hids [] Hindex).
Qed.

Lemma forM_releaseGroupLock_run (gids : list string) (w : World) :
  ∃ w', forM releaseGroupLock gids w = Ok tt w' ∧
        clock w' = clock w ∧
        (∀ gid, gid ∈ gids →
                db w' !! mutexKey (getGroupIndexKey gid) = None) ∧
        (∀ k, (∀ gid, gid ∈ gids → k ≠ mutexKey (getGroupIndexKey gid)) →
              db w' !! k = db w !! k) ∧
        (∀ k, db w !! k = None → db w' !! k = None).
Proof.
  revert w. induction gids as [|g gids IH]; intros w.
  - exists w. repeat split; auto. intros gid Hgid. now apply elem_of_nil in Hgid.
  - cbn [forM]. rewrite bind_run.
    unfold releaseGroupLock at 1, releaseLock, del.
    set (w1 := mkWorld (delete (mutexKey (getGroupIndexKey g)) (db w)) (clock w)).
    destruct (IH w1) as (w' & Hrun & Hclock & Hgone & Hframe & Hnone).
    exists w'. split; [exact Hrun |]. split; [exact Hclock |].
    split; [| split].
    + intros gid Hgid. apply elem_of_cons in Hgid.
      destruct Hgid as [-> | Hgid]; [| now apply Hgone].
      apply Hnone. subst w1. cbn [db]. apply lookup_delete_eq.
    + intros k Hk. rewrite Hframe.
      * subst w1. cbn [db]. apply lookup_delete_ne, not_eq_sym, Hk. now left.
      * intros gid Hgid. apply Hk. now right.
    + intros k Hk. apply Hnone. subst w1. cbn [db].
      apply lookup_delete_None. now right.
Qed.

(** The last steps of a sweep that passed the gate: the stamp, then the
    release of the list lock and of the lock of every group read. *)
Lemma disposeExpired_open_inv (fuel : nat) (lastInstancesDispose l : option Z)
    (w w' : World) (result : option Z) :
  shouldGC config lastInstancesDispose w = Ok (true, l) w →
  disposeExpired config wake fuel lastInstancesDispose w = Ok result w' →
  ∃ w1 gids w3,
    aquireListIndexLock config wake fuel
      (mkWorld (<[last_gc := VNumber (clock w)]> (db w)) (clock w))
    = Ok tt w1 ∧
    getList w1 = Ok gids w1 ∧
    result = Some (clock w3) ∧
    forM releaseGroupLock gids
      (mkWorld (delete (mutexKey listIndexKey)
                  (<[last_gc := VNumber (clock w3)]> (db w3)))
               (clock w3))
    = Ok tt w'.
Proof.
  intros Hgate Hrun. unfold disposeExpired in Hrun.
  rewrite (bind_Ok _ _ _ _ _ Hgate) in Hrun. cbn [fst snd negb] in Hrun.
  rewrite bind_run in Hrun. unfold now at 1 in Hrun.
  rewrite bind_run in Hrun. unfold now at 1 in Hrun.
  rewrite bind_run in Hrun. unfold set at 1 in Hrun.
  apply bind_Ok_inv in Hrun. destruct Hrun as ([] & w1 & Hlock & Hrun).
  apply bind_Ok_inv in Hrun. destruct Hrun as (gids & w1' & Hget & Hrun).
  assert (w1' = w1) as ->.
  { rewrite getList_run in Hget.
    destruct (db w1 !! listIndexKey) as [[| | |]|]; try discriminate;
      now injection Hget. }
  apply bind_Ok_inv in Hrun. destruct Hrun as (rem & w2 & _ & Hrun).
  apply bind_Ok_inv in Hrun. destruct Hrun as ([] & w3 & _ & Hrun).
  rewrite bind_run in Hrun. unfold now at 1 in Hrun.
  rewrite bind_run in Hrun. unfold set at 1 in Hrun.
  rewrite bind_run in Hrun. unfold now at 1 in Hrun. cbn [clock] in Hrun.
  rewrite bind_run in Hrun.
  unfold releaseListIndexLock at 1, releaseLock, del at 1 in Hrun.
  cbn [db clock] in Hrun.
  apply bind_Ok_inv in Hrun. destruct Hrun as ([] & w4 & Hrel & Hret).
  injection Hret as <- <-.
  exists w1, gids, w3. repeat split; assumption.
Qed.

(** X11 — a sweep that passes the gate and returns holds no lock any more:
    the list mutex and the mutex of every group of the global list it read
    are gone from the store; with the store left alone while it waited for
    locks, these are the groups the list named when the sweep began. *)
Theorem sweep_releases_every_lock (fuel : nat)
    (lastInstancesDispose l : option Z) (w w' : World) (result : option Z)
    (gids : list string) :
  quiet_store wake →
  shouldGC config lastInstancesDispose w = Ok (true, l) w →
  listed w gids →
  disposeExpired config wake fuel lastInstancesDispose w = Ok result w' →
  db w' !! mutexKey listIndexKey = None ∧
  ∀ gid, gid ∈ gids → db w' !! mutexKey (getGroupIndexKey gid) = None.
Proof.
  intros Hquiet Hgate Hlisted Hrun.
  destruct (disposeExpired_open_inv _ _ _ _ _ _ Hgate Hrun)
    as (w1 & gids' & w3 & Hlock & Hget & _ & Hrel).
  apply (aquireLock_frame config wake Hquiet) in Hlock. cbn [db] in Hlock.
  assert (gids' = gids) as ->.
  { rewrite getList_run, Hlock in Hget. revert Hget. lookups.
    destruct Hlisted as [[-> ->] | ->]; now intros [= <-]. }
  destruct (forM_releaseGroupLock_run gids
              (mkWorld (delete (mutexKey listIndexKey)
                          (<[last_gc := VNumber (clock w3)]> (db w3)))
                       (clock w3)))
    as (w'' & Hrel' & _ & Hgone & _ & Hnone).
  rewrite Hrel in Hrel'. injection Hrel' as <-.
  split; [| exact Hgone].
  apply Hnone. cbn [db]. apply lookup_delete_eq.
Qed.

(** X12 — a sweep that passes the gate and returns leaves [last_gc] at the
    time it ended, which is also the stamp it hands back to the request; so,
    with a positive [gcInterval], a second sweep at that time is gated,
    whatever its request's own stamp, and changes nothing. *)
Theorem sweep_stamps_and_gates_the_next (fuel : nat)
    (lastInstancesDispose l : option Z) (w w' : World) (result : option Z) :
  shouldGC config lastInstancesDispose w = Ok (true, l) w →
  disposeExpired config wake fuel lastInstancesDispose w = Ok result w' →
  db w' !! last_gc = Some (VNumber (clock w')) ∧
  result = Some (clock w') ∧
  (0 < gcInterval config →
   ∀ fuel' lastInstancesDispose',
     ∃ l', disposeExpired config wake fuel' lastInstancesDispose' w' = Ok l' w').
Proof.
  intros Hgate Hrun.
  destruct (disposeExpired_open_inv _ _ _ _ _ _ Hgate Hrun)
    as (w1 & gids & w3 & _ & _ & -> & Hrel).
  destruct (forM_releaseGroupLock_run gids
              (mkWorld (delete (mutexKey listIndexKey)
                          (<[last_gc := VNumber (clock w3)]> (db w3)))
                       (clock w3)))
    as (w'' & Hrel' & Hclock & _ & Hframe & _).
  rewrite Hrel in Hrel'. injection Hrel' as <-. cbn [clock] in Hclock.
  assert (Hstamp : db w' !! last_gc = Some (VNumber (clock w'))).
  { rewrite Hframe by (intros; keys_differ). cbn [db]. rewrite Hclock.
    now lookups. }
  split; [exact Hstamp |]. split; [now rewrite Hclock |].
  intros Hpos fuel' local'. apply disposeExpired_gated.
  unfold lastGC. rewrite Hstamp. cbn [parseInt plus_gt]. apply Z.ltb_lt. lia.
Qed.

End GC.

(** ** The sweep of a store with one group *)

Section SingleGroup.

Variable config : TConfig.
Variable wake : Q → World → World.

Lemma expired_at_same (t : Z) (gid id : string) (w w' : World) :
  db w' !! getInstanceKey gid id = db w !! getInstanceKey gid id →
  expired_at config t gid w' id = expired_at config t gid w id.
Proof. intros H. unfold expired_at. now rewrite H. Qed.

Lemma filter_out_only (g : string) : filter (λ gid, gid ∉ [g]) [g] = [].
Proof.
  rewrite filter_cons_False; [reflexivity |]. intros H. apply H. now left.
Qed.

(** The steps of [disposeExpired] after the sweep of the groups and the
    removal of the marked ones, for a list of one group. *)
Lemma disposeExpired_finish (g : string) (w3 : World) :
  (t2 ← now;
   set last_gc (VNumber t2);;
   t3 ← now;
   releaseListIndexLock;;
   forM releaseGroupLock [g];;
   mret (Some t3)) w3
  = Ok (Some (clock w3))
       (mkWorld
          (delete (mutexKey (getGroupIndexKey g))
             (delete (mutexKey listIndexKey)
                (<[last_gc := VNumber (clock w3)]> (db w3))))
          (clock w3)).
Proof. reflexivity. Qed.

(** The sweep of a store whose global list names the one group [g], with
    both locks free. *)
Lemma disposeExpired_single_group (fuel : nat)
    (lastInstancesDispose l : option Z) (g : string) (ids0 : list string)
    (w : World) :
  shouldGC config lastInstancesDispose w = Ok (true, l) w →
  db w !! listIndexKey = Some (VList [g]) →
  db w !! mutexKey listIndexKey = None →
  db w !! mutexKey (getGroupIndexKey g) = None →
  db w !! getGroupIndexKey g = Some (VList ids0) →
  (∀ x, x ∈ ids0 → instance_or_none w (getInstanceKey g x)) →
  let kept := filter (λ x, expired_at config (clock w) g w x = false) ids0 in
  ∃ w',
    disposeExpired config wake (S fuel) lastInstancesDispose w
    = Ok (Some (clock w)) w' ∧
    clock w' = clock w ∧
    (∀ x, x ∈ ids0 →
          db w' !! getInstanceKey g x
          = if expired_at config (clock w) g w x then None
            else db w !! getInstanceKey g x) ∧
    match kept with
    | [] => db w' !! getGroupKey g = None ∧
            db w' !! getGroupIndexKey g = None ∧
            db w' !! listIndexKey = Some (VList [])
    | _ :: _ => db w' !! getGroupKey g = db w !! getGroupKey g ∧
                db w' !! getGroupIndexKey g = Some (VList kept) ∧
                db w' !! listIndexKey = Some (VList [g])
    end ∧
    db w' !! last_gc = Some (VNumber (clock w)) ∧
    db w' !! mutexKey listIndexKey = None ∧
    db w' !! mutexKey (getGroupIndexKey g) = None.
Proof.
  intros Hgate Hlist Hml Hmg Hindex Hshape kept.
  set (t := clock w) in *.
  set (w0 := mkWorld (<[last_gc := VNumber t]> (db w)) t).
  set (w1 := claim listIndexKey w0).
  set (w1g := claim (getGroupIndexKey g) w1).
  assert (Hsame : ∀ k, k ≠ last_gc → k ≠ mutexKey listIndexKey →
                       k ≠ mutexKey (getGroupIndexKey g) →
                       db w1g !! k = db w !! k).
  { intros k H1 H2 H3. subst w1g w1 w0. unfold claim. cbn [db]. now lookups. }
  assert (Hlock1 : aquireListIndexLock config wake (S fuel) w0 = Ok tt w1).
  { apply aquireLock_open, lock_open_absent. subst w0. cbn [db]. now lookups. }
  assert (Hlockg : aquireGroupLock config wake (S fuel) g w1 = Ok tt w1g).
  { apply aquireLock_open, lock_open_absent. subst w1 w0. unfold claim.
    cbn [db]. now lookups. }
  assert (Hget : getList w1 = Ok [g] w1).
  { rewrite getList_run. subst w1 w0. unfold claim. cbn [db]. lookups.
    now rewrite Hlist. }
  destruct (disposeExpired_group_exact config wake (S fuel) t [] g ids0 w1 w1g
              Hlockg)
    as (w2 & Hgroup & Hidx2 & Hinst2 & Hframe2 & Hclock2).
  { right. rewrite Hsame by keys_differ. exact Hindex. }
  { intros x Hx. unfold instance_or_none. rewrite Hsame by keys_differ.
    now apply Hshape. }
  assert (Hkept : filter (λ x, expired_at config t g w1g x = false) ids0 = kept).
  { subst kept. apply filter_agree. intros x _.
    now rewrite (expired_at_same t g x w w1g) by (apply Hsame; keys_differ). }
  rewrite Hkept in Hgroup, Hidx2. clearbody kept.
  change (clock w1g) with t in Hclock2.
  assert (Hinst : ∀ x, x ∈ ids0 →
            db w2 !! getInstanceKey g x
            = if expired_at config t g w x then None
              else db w !! getInstanceKey g x).
  { intros x Hx. rewrite (Hinst2 x Hx).
    rewrite (expired_at_same t g x w w1g) by (apply Hsame; keys_differ).
    now rewrite Hsame by keys_differ. }
  assert (Hother : ∀ k, k ≠ getGroupIndexKey g →
                        (∀ x, k ≠ getInstanceKey g x) →
                        k ≠ last_gc → k ≠ mutexKey listIndexKey →
                        k ≠ mutexKey (getGroupIndexKey g) →
                        db w2 !! k = db w !! k).
  { intros k H1 H2 H3 H4 H5. rewrite Hframe2 by assumption. now apply Hsame. }
  assert (Hstart :
    disposeExpired config wake (S fuel) lastInstancesDispose w =
    (gidsToRemove ← foldM (disposeExpired_group config wake (S fuel) t) [] [g];
     match gidsToRemove with
     | _ :: _ =>
         forM (λ gid, del (getGroupKey gid)) gidsToRemove;;
         forM (λ gid, del (getGroupIndexKey gid)) gidsToRemove;;
         alterListIndex None (Some gidsToRemove)
     | [] => mret tt
     end;;
     t2 ← now;
     set last_gc (VNumber t2);;
     t3 ← now;
     releaseListIndexLock;;
     forM releaseGroupLock [g];;
     mret (Some t3)) w1).
  { unfold disposeExpired. rewrite (bind_Ok _ _ _ _ _ Hgate).
    cbn [fst snd negb]. rewrite bind_run. unfold now at 1.
    rewrite bind_run. unfold now at 1. rewrite bind_run. unfold set at 1.
    fold t. fold w0. rewrite (bind_Ok _ _ _ _ _ Hlock1).
    now rewrite (bind_Ok _ _ _ _ _ Hget). }
  rewrite Hstart. clear Hstart.
  rewrite bind_run. cbn [foldM]. rewrite bind_run, Hgroup.
  unfold mret at 1, M_ret at 1.
  destruct kept as [|y kept'].
  - (* nobody stays: the group goes *)
    cbn [app]. rewrite bind_run.
    assert (Hdrop :
      (forM (λ gid, del (getGroupKey gid)) [g];;
       forM (λ gid, del (getGroupIndexKey gid)) [g];;
       alterListIndex None (Some [g])) w2
      = Ok tt (mkWorld
                 (<[listIndexKey := VList []]>
                    (delete (getGroupIndexKey g)
                       (delete (getGroupKey g) (db w2))))
                 (clock w2))).
    { cbn [forM]. rewrite bind_run, bind_run. unfold del at 1.
      unfold mret at 1, M_ret at 1. rewrite bind_run, bind_run.
      unfold del at 1. unfold mret at 1, M_ret at 1. cbn [db clock].
      rewrite (alterListIndex_run None (Some [g]) [g]).
      - cbn [default from_option id app db clock]. now rewrite filter_out_only.
      - rewrite getList_run. cbn [db]. lookups.
        rewrite Hother by (intros; keys_differ). now rewrite Hlist. }
    rewrite Hdrop, disposeExpired_finish. cbn [db clock]. rewrite Hclock2.
    eexists. split; [reflexivity |]. cbn [db clock].
    split; [reflexivity |]. split; [| repeat split; now lookups].
    intros x Hx. lookups. now apply Hinst.
  - rewrite bind_run. unfold mret at 1, M_ret at 1.
    rewrite disposeExpired_finish. rewrite Hclock2.
    eexists. split; [reflexivity |]. cbn [db clock].
    split; [reflexivity |]. split; [| repeat split; try (now lookups)].
    + intros x Hx. lookups. now apply Hinst.
    + lookups. apply Hother; intros; key_ne.
    + lookups. rewrite Hother by (intros; keys_differ). exact Hlist.
Qed.

(** X13 — the sweep of a store whose global list names one group, with
    both locks free and the gate open: it returns at the first polls with
    the clock unchanged; every listed instance whose record is expired loses
    its record and the others keep theirs; if some id stays, the index is
    rewritten with the ids that stay and the group record and the global
    list are kept; if none stays, the group record and the index are
    deleted and the global list becomes empty; [last_gc] holds the time of
    the sweep and both locks are released. *)
Theorem sweep_removes_expired_and_empty_group (fuel : nat)
    (lastInstancesDispose l : option Z) (g : string) (ids0 : list string)
    (w : World) :
  shouldGC config lastInstancesDispose w = Ok (true, l) w →
  db w !! listIndexKey = Some (VList [g]) →
  db w !! mutexKey listIndexKey = None →
  db w !! mutexKey (getGroupIndexKey g) = None →
  db w !! getGroupIndexKey g = Some (VList ids0) →
  (∀ x, x ∈ ids0 → instance_or_none w (getInstanceKey g x)) →
  let kept := filter (λ x, expired_at config (clock w) g w x = false) ids0 in
  ∃ w',
    disposeExpired config wake (S fuel) lastInstancesDispose w
    = Ok (Some (clock w)) w' ∧
    clock w' = clock w ∧
    (∀ x, x ∈ ids0 →
          db w' !! getInstanceKey g x
          = if expired_at config (clock w) g w x then None
            else db w !! getInstanceKey g x) ∧
    match kept with
    | [] => db w' !! getGroupKey g = None ∧
            db w' !! getGroupIndexKey g = None ∧
            db w' !! listIndexKey = Some (VList [])
    | _ :: _ => db w' !! getGroupKey g = db w !! getGroupKey g ∧
                db w' !! getGroupIndexKey g = Some (VList kept) ∧
                db w' !! listIndexKey = Some (VList [g])
    end ∧
    db w' !! last_gc = Some (VNumber (clock w)) ∧
    db w' !! mutexKey listIndexKey = None ∧
    db w' !! mutexKey (getGroupIndexKey g) = None.
Proof.
  exact (disposeExpired_single_group fuel lastInstancesDispose l g ids0 w).
Qed.

End SingleGroup.

(** ** Stores built by upserts *)

Section Stores.

Variable g : string.
Variable payloadOf : string → Payload.
Variable t0 : Z.

Lemma lookup_records_in (ids : list string) (x : string) :
  x ∈ ids →
  records g payloadOf t0 ids !! getInstanceKey g x
  = Some (VInstance (recordOf g payloadOf t0 x)).
Proof.
  induction ids as [|y ids IH]; intros Hx; [now apply elem_of_nil in Hx |].
  cbn [records foldr]. destruct (decide (x = y)) as [->|Hne]; [now lookups |].
  lookups. apply IH. apply elem_of_cons in Hx. now destruct Hx.
Qed.

Lemma lookup_records_out (ids : list string) (k : string) :
  (∀ x, x ∈ ids → k ≠ getInstanceKey g x) →
  records g payloadOf t0 ids !! k = None.
Proof.
  induction ids as [|y ids IH]; intros Hk; [apply lookup_empty |].
  cbn [records foldr]. rewrite lookup_insert_ne.
  - apply IH. intros x Hx. apply Hk. now right.
  - apply not_eq_sym, Hk. now left.
Qed.

Lemma lookup_records_snoc (ids : list string) (id k : string) :
  k ≠ getInstanceKey g id →
  records g payloadOf t0 (ids ++ [id]) !! k = records g payloadOf t0 ids !! k.
Proof.
  intros Hk. induction ids as [|y ids IH].
  - cbn [app records foldr]. now lookups.
  - cbn [app records foldr].
    destruct (decide (k = getInstanceKey g y)) as [->|Hne]; [now lookups |].
    lookups. exact IH.
Qed.

(** Lookups in [groupStore] for a group that has instances. *)
Lemma lookup_groupStore (y : string) (l : list string) (k : string) :
  groupStore g payloadOf t0 (y :: l) !! k =
  if decide (k = listIndexKey) then Some (VList [g])
  else if decide (k = getGroupKey g) then Some (VGroup (mkGroup g t0 t0))
  else if decide (k = getGroupIndexKey g) then Some (VList (y :: l))
  else records g payloadOf t0 (y :: l) !! k.
Proof.
  unfold groupStore.
  destruct (decide (k = listIndexKey)) as [->|?]; [now lookups |].
  destruct (decide (k = getGroupKey g)) as [->|?]; [now lookups |].
  destruct (decide (k = getGroupIndexKey g)) as [->|?]; now lookups.
Qed.

Lemma lookup_groupStore_other (ids : list string) (k : string) :
  k ≠ listIndexKey → k ≠ getGroupKey g → k ≠ getGroupIndexKey g →
  (∀ x, k ≠ getInstanceKey g x) →
  groupStore g payloadOf t0 ids !! k = None.
Proof.
  intros H1 H2 H3 H4. destruct ids as [|y l]; [apply lookup_empty |].
  rewrite lookup_groupStore, !decide_False by assumption.
  apply lookup_records_out. intros x _. apply H4.
Qed.

End Stores.

Section StoreRuns.

Variable config : TConfig.
Variable wake : Q → World → World.
Variable g : string.
Variable payloadOf : string → Payload.
Variable t0 : Z.

Lemma groupStore_unlocked (ids : list string) (name : string) :
  groupStore g payloadOf t0 ids !! mutexKey name = None.
Proof. apply lookup_groupStore_other; intros; keys_differ. Qed.

(** One upsert at time [t0] on a store built by upserts at [t0]. *)
Lemma post_groupStore (fuel : nat) (ids : list string) (id : string) :
  post config wake (S fuel) g id (payloadOf id) (mkWorld (groupStore g payloadOf t0 ids) t0)
  = Ok (payloadOf id) (mkWorld (groupStore g payloadOf t0 (addNew ids id)) t0).
Proof.
  set (w := mkWorld (groupStore g payloadOf t0 ids) t0).
  assert (Hopen : lock_open config (getGroupIndexKey g) w = true).
  { apply lock_open_absent. apply groupStore_unlocked. }
  assert (Hopenl : lock_open config listIndexKey w = true).
  { apply lock_open_absent. apply groupStore_unlocked. }
  unfold addNew. destruct (decide (id ∈ ids)) as [Hin|Hout].
  - (* heartbeat *)
    destruct ids as [|y l]; [now apply elem_of_nil in Hin |].
    rewrite (post_heartbeat_run config wake fuel g id (payloadOf id) w
               (recordOf g payloadOf t0 id) (mkGroup g t0 t0) Hopen).
    + f_equal. unfold w. cbn [db clock]. f_equal. apply map_eq. intros k.
      destruct (decide (k = mutexKey (getGroupIndexKey g))) as [->|?].
      { lookups. symmetry. apply groupStore_unlocked. }
      destruct (decide (k = getGroupKey g)) as [->|?].
      { lookups. rewrite lookup_groupStore.
        rewrite decide_False by keys_differ. now rewrite decide_True. }
      destruct (decide (k = getInstanceKey g id)) as [->|?]; [| now lookups].
      lookups. rewrite lookup_groupStore.
      rewrite !decide_False by keys_differ. symmetry.
      now apply lookup_records_in.
    + unfold w. cbn [db]. rewrite lookup_groupStore.
      rewrite !decide_False by keys_differ. now apply lookup_records_in.
    + unfold w. cbn [db]. rewrite lookup_groupStore.
      rewrite decide_False by keys_differ. now rewrite decide_True.
  - destruct ids as [|y l].
    + (* the group is created *)
      rewrite (post_create_run config wake fuel g id (payloadOf id) w []
                 Hopen Hopenl); try (now left); try reflexivity.
      f_equal. unfold w. cbn [db clock app]. f_equal. apply map_eq. intros k.
      rewrite lookup_groupStore. unfold groupStore.
      destruct (decide (k = mutexKey (getGroupIndexKey g))) as [->|?].
      { lookups. rewrite !decide_False by keys_differ. symmetry.
        apply lookup_records_out. intros; keys_differ. }
      destruct (decide (k = mutexKey listIndexKey)) as [->|?].
      { lookups. rewrite !decide_False by keys_differ. symmetry.
        apply lookup_records_out. intros; keys_differ. }
      destruct (decide (k = listIndexKey)) as [->|?]; [now lookups |].
      destruct (decide (k = getGroupKey g)) as [->|?]; [now lookups |].
      destruct (decide (k = getGroupIndexKey g)) as [->|?]; [now lookups |].
      lookups. cbn [records foldr].
      destruct (decide (k = getInstanceKey g id)) as [->|?]; now lookups.
    + (* the id is appended *)
      rewrite (post_append_run config wake fuel g id (payloadOf id) w (y :: l)
                 (mkGroup g t0 t0) Hopen).
      * f_equal. unfold w. cbn [db clock]. f_equal. apply map_eq. intros k.
        change ((y :: l) ++ [id]) with (y :: (l ++ [id])).
        rewrite !lookup_groupStore.
        destruct (decide (k = mutexKey (getGroupIndexKey g))) as [->|?].
        { lookups. rewrite !decide_False by keys_differ. symmetry.
          apply lookup_records_out. intros; keys_differ. }
        destruct (decide (k = listIndexKey)) as [->|?].
        { lookups. rewrite lookup_groupStore. now rewrite decide_True. }
        destruct (decide (k = getGroupKey g)) as [->|?]; [now lookups |].
        destruct (decide (k = getGroupIndexKey g)) as [->|?]; [now lookups |].
        change (y :: (l ++ [id])) with ((y :: l) ++ [id]).
        destruct (decide (k = getInstanceKey g id)) as [->|?].
        { lookups. symmetry. apply lookup_records_in. apply elem_of_app.
          right. now left. }
        lookups. rewrite lookup_groupStore, !decide_False by assumption.
        symmetry. now apply lookup_records_snoc.
      * unfold w. cbn [db]. rewrite lookup_groupStore.
        rewrite !decide_False by keys_differ.
        apply lookup_records_out. intros x Hx. apply getInstanceKey_ne.
        intros ->. contradiction.
      * unfold w. cbn [db]. rewrite lookup_groupStore.
        rewrite decide_False by keys_differ. now rewrite decide_True.
      * unfold w. cbn [db]. rewrite lookup_groupStore.
        rewrite decide_False by keys_differ.
        rewrite decide_False by (apply not_eq_sym, getGroupKey_ne_index).
        now rewrite decide_True.
Qed.

Lemma upserts_groupStore (fuel : nat) (new ids : list string) :
  serveAll config wake (S fuel) (upserts g payloadOf new)
    (mkWorld (groupStore g payloadOf t0 ids) t0)
  = Ok tt (mkWorld (groupStore g payloadOf t0 (foldl addNew ids new)) t0).
Proof.
  revert ids. induction new as [|id new IH]; intros ids; [reflexivity |].
  unfold serveAll, upserts in *. cbn [map forM serve foldl].
  rewrite bind_run, bind_run, post_groupStore. apply IH.
Qed.

End StoreRuns.

Section StoreReads.

Variable config : TConfig.
Variable wake : Q → World → World.
Variable g : string.
Variable payloadOf : string → Payload.
Variable t0 : Z.

(** A sweep at [t0] of a store built by upserts at [t0] finds every
    instance alive and leaves the group as it is. *)
Lemma disposeExpired_groupStore (fuel : nat)
    (lastInstancesDispose : option Z) (y : string) (l : list string) :
  0 < instanceTimeout config →
  ∃ result w',
    disposeExpired config wake (S fuel) lastInstancesDispose
      (mkWorld (groupStore g payloadOf t0 (y :: l)) t0)
    = Ok result w' ∧
    db w' !! listIndexKey = Some (VList [g]) ∧
    db w' !! getGroupKey g = Some (VGroup (mkGroup g t0 t0)) ∧
    db w' !! getGroupIndexKey g = Some (VList (y :: l)) ∧
    (∀ x, x ∈ y :: l →
          db w' !! getInstanceKey g x
          = Some (VInstance (recordOf g payloadOf t0 x))).
Proof.
  intros Htimeout.
  set (w := mkWorld (groupStore g payloadOf t0 (y :: l)) t0).
  assert (Hlist : db w !! listIndexKey = Some (VList [g])).
  { unfold w. cbn [db]. rewrite lookup_groupStore. now rewrite decide_True. }
  assert (Hgroup : db w !! getGroupKey g = Some (VGroup (mkGroup g t0 t0))).
  { unfold w. cbn [db]. rewrite lookup_groupStore.
    rewrite decide_False by keys_differ. now rewrite decide_True. }
  assert (Hindex : db w !! getGroupIndexKey g = Some (VList (y :: l))).
  { unfold w. cbn [db]. rewrite lookup_groupStore.
    rewrite decide_False by keys_differ.
    rewrite decide_False by (apply not_eq_sym, getGroupKey_ne_index).
    now rewrite decide_True. }
  assert (Hinst : ∀ x, x ∈ y :: l →
            db w !! getInstanceKey g x
            = Some (VInstance (recordOf g payloadOf t0 x))).
  { intros x Hx. unfold w. cbn [db]. rewrite lookup_groupStore.
    rewrite !decide_False by keys_differ. now apply lookup_records_in. }
  pose proof (shouldGC_run config lastInstancesDispose w) as Hgate.
  destruct (plus_gt lastInstancesDispose (gcInterval config) (clock w));
    [| destruct (plus_gt (lastGC w) (gcInterval config) (clock w))].
  - exists lastInstancesDispose, w.
    split; [unfold disposeExpired; rewrite (bind_Ok _ _ _ _ _ Hgate); reflexivity |].
    repeat split; assumption.
  - exists (lastGC w), w.
    split; [unfold disposeExpired; rewrite (bind_Ok _ _ _ _ _ Hgate); reflexivity |].
    repeat split; assumption.
  - destruct (disposeExpired_single_group config wake fuel
                lastInstancesDispose (lastGC w) g (y :: l) w Hgate Hlist)
      as (w' & Hrun & _ & Hinst' & Hkept & _).
    { apply groupStore_unlocked. }
    { apply groupStore_unlocked. }
    { exact Hindex. }
    { intros x Hx. unfold instance_or_none. now rewrite (Hinst x Hx). }
    assert (Halive : ∀ x, x ∈ y :: l → expired_at config (clock w) g w x = false).
    { intros x Hx. unfold expired_at. rewrite (Hinst x Hx).
      unfold recordOf, w. cbn [i_updatedAt clock].
      apply negb_false_iff, Z.ltb_lt. lia. }
    rewrite (filter_all _ (y :: l) Halive) in Hkept.
    destruct Hkept as (Hgroup' & Hindex' & Hlist').
    exists (Some (clock w)), w'. split; [exact Hrun |].
    repeat split; try assumption; [congruence |].
    intros x Hx. rewrite (Hinst' x Hx), (Halive x Hx). now apply Hinst.
Qed.

(** X14 — from the empty store, a sequence of upserts into one group, served
    back to back at time [t0], leaves exactly this store: the global list
    naming the group, the group record and every instance record stamped
    [t0], each instance with the payload sent for it, the index listing the
    ids once each in the order of their first upsert, and no other key (no
    lock, no stamp). *)
Theorem upserts_build_the_store (fuel : nat) (new : list string) :
  serveAll config wake (S fuel) (upserts g payloadOf new) (emptyWorld t0)
  = Ok tt (mkWorld (groupStore g payloadOf t0 (foldl addNew [] new)) t0).
Proof. exact (upserts_groupStore config wake g payloadOf t0 fuel new []). Qed.

(** X15 — reading back a store built by upserts, at the same time and with
    a positive [instanceTimeout]: whether or not the request runs a sweep
    first, the listing of groups answers the one group with its record and
    [instances] the decimal count of its ids, and the fetch of the group
    answers the stored record of every id, in index order. *)
Theorem reads_after_upserts (fuel : nat) (lastInstancesDispose : option Z)
    (y : string) (l : list string) :
  0 < instanceTimeout config →
  let w := mkWorld (groupStore g payloadOf t0 (y :: l)) t0 in
  (∃ w', getGroups config wake (S fuel) lastInstancesDispose w
         = Ok [(mkGroup g t0 t0, pretty (length (y :: l)))] w') ∧
  (∃ w', getGroup config wake (S fuel) lastInstancesDispose g w
         = Ok (OK, map (λ x, Some (VInstance (recordOf g payloadOf t0 x)))
                       (y :: l)) w').
Proof.
  intros Htimeout w.
  destruct (disposeExpired_groupStore fuel lastInstancesDispose y l Htimeout)
    as (result & w' & Hgc & Hlist & Hgroup & Hindex & Hinst).
  fold w in Hgc. split; exists w'.
  - unfold getGroups. rewrite (bind_Ok _ _ _ _ _ Hgc).
    rewrite bind_run, getList_run, Hlist. cbn [mapM].
    rewrite bind_run, bind_run, bind_run. unfold get at 1. rewrite Hgroup.
    rewrite bind_run. unfold get at 1. rewrite Hindex. reflexivity.
  - unfold getGroup. rewrite (bind_Ok _ _ _ _ _ Hgc).
    rewrite bind_run. unfold get at 1. rewrite Hindex.
    rewrite bind_run, mapM_get_run. unfold mret, M_ret. do 2 f_equal.
    apply map_ext_in. intros x Hx. apply Hinst. now apply list_elem_of_In.
Qed.

End StoreReads.

(** * More concrete runs *)

Lemma quiet_sleeps_long_enough : sleeps_long_enough quiet.
Proof.
  intros ms w. unfold quiet. cbn [clock].
  pose proof (Z.mul_succ_div_gt (Qnum ms + Z.pos (Qden ms) - 1)
                (Z.pos (Qden ms)) ltac:(lia)) as H.
  lia.
Defined.

Lemma busy_never_free (n : nat) (w : World) :
  db w !! mutexKey listIndexKey = Some (VNumber (clock w)) →
  ¬ observed_free demoConfig listIndexKey (naps demoConfig busy n w).
Proof.
  revert w. induction n as [|n IH]; intros w Hheld.
  - cbn [naps]. intros [Hnone | (start & Hsome & Hlt)]; [congruence |].
    rewrite Hheld in Hsome. injection Hsome as <-. cbn in Hlt. lia.
  - cbn [naps]. apply IH. unfold busy. cbn [db clock]. apply lookup_insert_eq.
Defined.

Lemma aquireLock_takes_over_abandoned_witness :
  quiet_store quiet ∧ sleeps_long_enough quiet ∧
  0 < mutexTimeout demoConfig ∧ (26 < 27)%nat ∧
  db heldWorld !! mutexKey listIndexKey = Some (VNumber 1000) ∧
  1000 ≤ clock heldWorld ∧
  ∃ n, (n ≤ 26)%nat ∧
       aquireLock demoConfig quiet 27 listIndexKey heldWorld
       = Ok tt (claim listIndexKey (naps demoConfig quiet n heldWorld)).
Proof.
  assert (H1 : 0 < mutexTimeout demoConfig) by reflexivity.
  assert (H2 : (26 < 27)%nat) by lia.
  assert (H3 : db heldWorld !! mutexKey listIndexKey = Some (VNumber 1000))
    by reflexivity.
  assert (H4 : 1000 ≤ clock heldWorld) by (cbn; lia).
  repeat (split; [first [exact quiet_is_quiet | exact quiet_sleeps_long_enough
                        | assumption] |]).
  exact (aquireLock_takes_over_abandoned demoConfig quiet 27 listIndexKey 1000
           heldWorld quiet_is_quiet quiet_sleeps_long_enough H1 H2 H3 H4).
Defined.

Lemma aquireLock_releaseLock_round_trip_witness :
  lock_open demoConfig listIndexKey oneInstance = true ∧
  (aquireLock demoConfig quiet 1 listIndexKey;; releaseLock listIndexKey)
    oneInstance
  = Ok tt (unlocked listIndexKey oneInstance) ∧
  (db oneInstance !! mutexKey listIndexKey = None →
   unlocked listIndexKey oneInstance = oneInstance).
Proof.
  split; [reflexivity |].
  apply (aquireLock_releaseLock_round_trip demoConfig quiet 0 listIndexKey
           oneInstance).
  reflexivity.
Defined.

Lemma aquireLock_starves_iff_witness :
  aquireLock demoConfig busy 1000 listIndexKey heldWorld = Stop OutOfFuel.
Proof.
  apply (proj2 (aquireLock_starves_iff demoConfig busy listIndexKey heldWorld)).
  intros n. apply busy_never_free. reflexivity.
Defined.

Lemma first_upsert_creates_group_witness :
  let w := emptyWorld 1000 in
  lock_open demoConfig (getGroupIndexKey "g") w = true ∧
  lock_open demoConfig listIndexKey w = true ∧
  db w !! getInstanceKey "g" "a" = None ∧
  db w !! getGroupKey "g" = None ∧
  (db w !! getGroupIndexKey "g" = None ∨
   ∃ ids, db w !! getGroupIndexKey "g" = Some (VList ids)) ∧
  (db w !! listIndexKey = None ∧ @nil string = [] ∨
   db w !! listIndexKey = Some (VList [])) ∧
  ∃ w',
    post demoConfig quiet 1 "g" "a" "{x:1}" w = Ok "{x:1}" w' ∧
    db w' !! getInstanceKey "g" "a"
    = Some (VInstance (mkInstance "a" "g" 1000 1000 "{x:1}")) ∧
    db w' !! getGroupKey "g" = Some (VGroup (mkGroup "g" 1000 1000)) ∧
    db w' !! getGroupIndexKey "g" = Some (VList ["a"]) ∧
    db w' !! listIndexKey = Some (VList ([] ++ ["g"])) ∧
    db w' !! mutexKey (getGroupIndexKey "g") = None ∧
    db w' !! mutexKey listIndexKey = None.
Proof.
  intros w.
  assert (H5 : db w !! getGroupIndexKey "g" = None ∨
               ∃ ids, db w !! getGroupIndexKey "g" = Some (VList ids))
    by (left; reflexivity).
  assert (H6 : db w !! listIndexKey = None ∧ @nil string = [] ∨
               db w !! listIndexKey = Some (VList []))
    by (left; split; reflexivity).
  split; [reflexivity |]. split; [reflexivity |]. split; [reflexivity |].
  split; [reflexivity |]. split; [exact H5 |]. split; [exact H6 |].
  exact (first_upsert_creates_group demoConfig quiet 0 "g" "a" "{x:1}" w []
           eq_refl eq_refl eq_refl eq_refl H5 H6).
Defined.

Lemma upsert_appends_new_instance_witness :
  lock_open demoConfig (getGroupIndexKey "g") oneInstance = true ∧
  db oneInstance !! getInstanceKey "g" "b" = None ∧
  db oneInstance !! getGroupKey "g" = Some (VGroup (mkGroup "g" 1000 1000)) ∧
  db oneInstance !! getGroupIndexKey "g" = Some (VList ["a"]) ∧
  ∃ w',
    post demoConfig quiet 1 "g" "b" "{}" oneInstance = Ok "{}" w' ∧
    db w' !! getGroupIndexKey "g" = Some (VList ["a"; "b"]).
Proof.
  split; [reflexivity |]. split; [reflexivity |]. split; [reflexivity |].
  split; [reflexivity |].
  destruct (upsert_appends_new_instance demoConfig quiet 0 "g" "b" "{}"
              oneInstance ["a"] (mkGroup "g" 1000 1000)
              eq_refl eq_refl eq_refl eq_refl)
    as (w' & Hrun & Hindex & _).
  exists w'. split; [exact Hrun | exact Hindex].
Defined.

Lemma otherGroupWorld_consistent : consistent "g" [] otherGroupWorld.
Proof.
  unfold consistent, list_or_none, otherGroupWorld. cbn [db].
  repeat split; try reflexivity; try apply NoDup_nil_2.
  intros x. rewrite lookup_singleton_ne by keys_differ. apply not_elem_of_nil.
Defined.

Lemma upsert_then_remove_restores_witness :
  consistent "g" [] otherGroupWorld ∧
  db otherGroupWorld !! listIndexKey = Some (VList ["h"]) ∧
  ("g" ∉ ["h"]) ∧
  (post demoConfig quiet 1 "g" "a" "{}";;
   delete_ demoConfig quiet 1 "g" "a") otherGroupWorld
  = Ok NO_CONTENT otherGroupWorld.
Proof.
  assert (Hfresh : "g" ∉ ["h"]).
  { intros H. apply list_elem_of_singleton in H. discriminate. }
  split; [exact otherGroupWorld_consistent |]. split; [reflexivity |].
  split; [exact Hfresh |].
  exact (upsert_then_remove_restores demoConfig quiet 0 "g" "a" "{}"
           otherGroupWorld ["h"] otherGroupWorld_consistent eq_refl Hfresh).
Defined.

Lemma alterListIndex_adds_then_removes_witness :
  (db otherGroupWorld !! listIndexKey = None ∧ ["h"] = [] ∨
   db otherGroupWorld !! listIndexKey = Some (VList ["h"])) ∧
  (∀ gid, gid ∈ default [] (Some ["g"]) → gid ∉ default [] (Some ["h"])) ∧
  alterListIndex (Some ["g"]) (Some ["h"]) otherGroupWorld
  = Ok tt (mkWorld
             (<[listIndexKey :=
                  VList (filter (λ gid, gid ∉ default [] (Some ["h"]))
                           (["h"] ++ default [] (Some ["g"])))]>
                (db otherGroupWorld))
             (clock otherGroupWorld)).
Proof.
  assert (H1 : db otherGroupWorld !! listIndexKey = None ∧ ["h"] = [] ∨
               db otherGroupWorld !! listIndexKey = Some (VList ["h"]))
    by (right; reflexivity).
  assert (H2 : ∀ gid, gid ∈ default [] (Some ["g"]) →
                      gid ∉ default [] (Some ["h"])).
  { intros gid Hg Hh. apply list_elem_of_singleton in Hg, Hh. congruence. }
  split; [exact H1 |]. split; [exact H2 |].
  exact (alterListIndex_adds_then_removes (Some ["g"]) (Some ["h"]) ["h"]
           otherGroupWorld H1 H2).
Defined.

Lemma sweep_group_prunes_expired_witness :
  let w1 := claim (getGroupIndexKey "g") oneInstance in
  aquireGroupLock demoConfig quiet 1 "g" oneInstance = Ok tt w1 ∧
  (db w1 !! getGroupIndexKey "g" = None ∧ ["a"] = [] ∨
   db w1 !! getGroupIndexKey "g" = Some (VList ["a"])) ∧
  (∀ x, x ∈ ["a"] → instance_or_none w1 (getInstanceKey "g" x)) ∧
  ∃ w2,
    disposeExpired_group demoConfig quiet 1 61000 [] "g" oneInstance
    = Ok ["g"] w2 ∧
    db w2 !! getInstanceKey "g" "a" = None.
Proof.
  intros w1.
  assert (H1 : aquireGroupLock demoConfig quiet 1 "g" oneInstance = Ok tt w1)
    by reflexivity.
  assert (H2 : db w1 !! getGroupIndexKey "g" = None ∧ ["a"] = [] ∨
               db w1 !! getGroupIndexKey "g" = Some (VList ["a"]))
    by (right; reflexivity).
  assert (H3 : ∀ x, x ∈ ["a"] → instance_or_none w1 (getInstanceKey "g" x)).
  { intros x Hx. apply list_elem_of_singleton in Hx. subst x. exact I. }
  split; [exact H1 |]. split; [exact H2 |]. split; [exact H3 |].
  destruct (sweep_group_prunes_expired demoConfig quiet 1 61000 [] "g" ["a"]
              oneInstance w1 H1 H2 H3)
    as (w2 & Hrun & _ & Hinst & _).
  exists w2. split; [exact Hrun |].
  apply (Hinst "a"). apply list_elem_of_singleton. reflexivity.
Defined.

Lemma gated_fetch_reads_only_witness :
  plus_gt (lastGC orphanEarly) (gcInterval demoConfig) (clock orphanEarly)
  = true ∧
  getGroupAnswer (λ _, "{}") demoConfig quiet 0 None "g" orphanEarly
  = Ok (OK, Some "[]") orphanEarly ∧
  getGroupAnswer (λ _, "{}") demoConfig quiet 0 None "h" orphanEarly
  = Ok (NOT_FOUND, None) orphanEarly.
Proof.
  split; [reflexivity |]. split.
  - apply (proj1 (proj2 (proj2
             (gated_fetch_reads_only demoConfig quiet (λ _, "{}") 0 None "g"
                orphanEarly eq_refl))) "a"); reflexivity.
  - apply (proj1 (gated_fetch_reads_only demoConfig quiet (λ _, "{}") 0 None
                    "h" orphanEarly eq_refl)).
    reflexivity.
Defined.

Lemma sweep_releases_every_lock_witness :
  quiet_store quiet ∧
  shouldGC demoConfig None oneInstance = Ok (true, Some 0) oneInstance ∧
  listed oneInstance ["g"] ∧
  disposeExpired demoConfig quiet 1 None oneInstance
  = Ok (Some 61000) sweptWorld ∧
  db sweptWorld !! mutexKey listIndexKey = None ∧
  ∀ gid, gid ∈ ["g"] → db sweptWorld !! mutexKey (getGroupIndexKey gid) = None.
Proof.
  assert (H1 : shouldGC demoConfig None oneInstance
               = Ok (true, Some 0) oneInstance) by reflexivity.
  assert (H2 : listed oneInstance ["g"]) by (right; reflexivity).
  assert (H3 : disposeExpired demoConfig quiet 1 None oneInstance
               = Ok (Some 61000) sweptWorld) by (vm_compute; reflexivity).
  split; [exact quiet_is_quiet |]. split; [exact H1 |]. split; [exact H2 |].
  split; [exact H3 |].
  exact (sweep_releases_every_lock demoConfig quiet 1 None (Some 0)
           oneInstance sweptWorld (Some 61000) ["g"] quiet_is_quiet H1 H2 H3).
Defined.

Lemma sweep_stamps_and_gates_the_next_witness :
  shouldGC demoConfig None oneInstance = Ok (true, Some 0) oneInstance ∧
  disposeExpired demoConfig quiet 1 None oneInstance
  = Ok (Some 61000) sweptWorld ∧
  db sweptWorld !! last_gc = Some (VNumber (clock sweptWorld)) ∧
  Some 61000 = Some (clock sweptWorld) ∧
  (0 < gcInterval demoConfig →
   ∀ fuel' lastInstancesDispose',
     ∃ l', disposeExpired demoConfig quiet fuel' lastInstancesDispose' sweptWorld
           = Ok l' sweptWorld).
Proof.
  assert (H1 : shouldGC demoConfig None oneInstance
               = Ok (true, Some 0) oneInstance) by reflexivity.
  assert (H2 : disposeExpired demoConfig quiet 1 None oneInstance
               = Ok (Some 61000) sweptWorld) by (vm_compute; reflexivity).
  split; [exact H1 |]. split; [exact H2 |].
  exact (sweep_stamps_and_gates_the_next demoConfig quiet 1 None (Some 0)
           oneInstance sweptWorld (Some 61000) H1 H2).
Defined.

Lemma sweep_removes_expired_and_empty_group_witness :
  shouldGC demoConfig None oneInstance = Ok (true, Some 0) oneInstance ∧
  db oneInstance !! listIndexKey = Some (VList ["g"]) ∧
  db oneInstance !! mutexKey listIndexKey = None ∧
  db oneInstance !! mutexKey (getGroupIndexKey "g") = None ∧
  db oneInstance !! getGroupIndexKey "g" = Some (VList ["a"]) ∧
  (∀ x, x ∈ ["a"] → instance_or_none oneInstance (getInstanceKey "g" x)) ∧
  ∃ w',
    disposeExpired demoConfig quiet 1 None oneInstance
    = Ok (Some (clock oneInstance)) w' ∧
    clock w' = clock oneInstance.
Proof.
  assert (H6 : ∀ x, x ∈ ["a"] →
                    instance_or_none oneInstance (getInstanceKey "g" x)).
  { intros x Hx. apply list_elem_of_singleton in Hx. subst x. exact I. }
  split; [reflexivity |]. split; [reflexivity |]. split; [reflexivity |].
  split; [reflexivity |]. split; [reflexivity |]. split; [exact H6 |].
  destruct (sweep_removes_expired_and_empty_group demoConfig quiet 0 None
              (Some 0) "g" ["a"] oneInstance
              eq_refl eq_refl eq_refl eq_refl eq_refl H6)
    as (w' & Hrun & Hclock & _).
  exists w'. split; [exact Hrun | exact Hclock].
Defined.

Lemma reads_after_upserts_witness :
  0 < instanceTimeout demoConfig ∧
  let w := mkWorld (groupStore "g" (λ _, "{}") 1000 ["a"; "b"]) 1000 in
  (∃ w', getGroups demoConfig quiet 1 None w
         = Ok [(mkGroup "g" 1000 1000, pretty (length ["a"; "b"]))] w') ∧
  (∃ w', getGroup demoConfig quiet 1 None "g" w
         = Ok (OK, map (λ x, Some (VInstance (recordOf "g" (λ _, "{}") 1000 x)))
                       ["a"; "b"]) w').
Proof.
  assert (H : 0 < instanceTimeout demoConfig) by reflexivity.
  split; [exact H |].
  exact (reads_after_upserts demoConfig quiet "g" (λ _, "{}") 1000 0 None
           "a" ["b"] H).
Defined.

(** The listing after two upserts says ["2"]. *)
Example listing_counts_two :
  ∃ w w',
    serveAll demoConfig quiet 1 (upserts "g" (λ _, "{}") ["a"; "b"])
      (emptyWorld 1000) = Ok tt w ∧
    getGroups demoConfig quiet 1 None w
    = Ok [(mkGroup "g" 1000 1000, "2")] w'.
Proof. eexists _, _. split; vm_compute; reflexivity. Qed.
